(** * digma: camera control and coordinate-transform pipeline

    A shallow embedding of the two source files of the repository,

    - [crates/renderer_wgpu/src/shader.wgsl] (the instanced-quad vertex and
      fragment shaders), and
    - [web/src/App.tsx] (the Solid component that turns pointer and wheel
      input into an input batch and drives the per-frame tick),

    together with the properties the design document states about them.

    Numbers.  WGSL [f32] and JavaScript [number] are IEEE-754 formats.  The
    programs are written once, over an interface [Arith] of the arithmetic
    operations they use, so every structural property (which value is
    stored where, which branch runs, what is pushed or cleared) holds for
    any implementation of the operations, rounding included.  Properties
    that need algebra (the pivot invariance, the telescoping of pan deltas,
    the composition of zoom multipliers) are proved at the instance of
    the real numbers, the idealisation the design document itself adopts
    when it speaks of results "within floating-point tolerance".  Where
    the idealisation hides what the program does (the zoom multiplier of a
    large wheel movement) the program is run at the instance [Binary64],
    the numbers of JavaScript. *)

From Stdlib Require Import Reals Lra QArith Qreals String List ZArith Bool.
From Stdlib Require SpecFloat.
From stdpp Require Import base option gmap list.
Import ListNotations.

(* ===================================================================== *)
(** ** Arithmetic interface *)
(* ===================================================================== *)

(** The operations the two programs use on numbers.  [flit] injects a
    decimal literal of the source, given as the rational it denotes. *)
Class Arith (F : Type) := {
  fadd : F -> F -> F;
  fsub : F -> F -> F;
  fmul : F -> F -> F;
  fdiv : F -> F -> F;
  fneg : F -> F;
  fexp : F -> F;
  flit : Q -> F
}.

Declare Scope num_scope.
Delimit Scope num_scope with num.
Infix "+" := fadd : num_scope.
Infix "-" := fsub : num_scope.
Infix "*" := fmul : num_scope.
Infix "/" := fdiv : num_scope.
Notation "- a" := (fneg a) : num_scope.

(** Real arithmetic. *)
#[export] Instance Arith_R : Arith R := {
  fadd := Rplus;
  fsub := Rminus;
  fmul := Rmult;
  fdiv := Rdiv;
  fneg := Ropp;
  fexp := exp;
  flit := Q2R
}.

(** [Point] of [App.tsx] (lines 4-7) and of the design document's data
    model: a pair of numbers, pixel-space or world-space by context. *)
Record Point (F : Type) := mkPoint { x : F; y : F }.
Arguments mkPoint {F} _ _.
Arguments x {F} _.
Arguments y {F} _.

(** [CameraView] of [App.tsx] (lines 9-12). *)
Record CameraView (F : Type) := mkCameraView { pan : Point F; zoom : F }.
Arguments mkCameraView {F} _ _.
Arguments pan {F} _.
Arguments zoom {F} _.

(* ===================================================================== *)
(** ** shader.wgsl *)
(* ===================================================================== *)

Module Shader.

(** WGSL [vec2<f32>] and [vec4<f32>]. *)
Record vec2 (F : Type) := Vec2 { vx : F; vy : F }.
Arguments Vec2 {F} _ _.
Arguments vx {F} _.
Arguments vy {F} _.

Record vec4 (F : Type) := Vec4 { cx : F; cy : F; cz : F; cw : F }.
Arguments Vec4 {F} _ _ _ _.
Arguments cx {F} _.
Arguments cy {F} _.
Arguments cz {F} _.
Arguments cw {F} _.

(** [struct CameraUniform], padding fields included. *)
Record CameraUniform (F : Type) := mkCameraUniform {
  u_pan : vec2 F;
  u_zoom : F;
  _pad0 : F;
  u_canvas : vec2 F;
  _pad1 : vec2 F
}.
Arguments mkCameraUniform {F} _ _ _ _ _.
Arguments u_pan {F} _.
Arguments u_zoom {F} _.
Arguments _pad0 {F} _.
Arguments u_canvas {F} _.
Arguments _pad1 {F} _.

(** [struct VsOut]: the clip-space position is its only field; nothing
    else is interpolated and handed to the fragment stage. *)
Record VsOut (F : Type) := mkVsOut { pos : vec4 F }.
Arguments mkVsOut {F} _.
Arguments pos {F} _.

Section Wgsl.
Context {F : Type} {A : Arith F}.
Local Open Scope num_scope.

(** Component-wise operators of WGSL on [vec2]. *)
Definition vadd (a b : vec2 F) : vec2 F := Vec2 (vx a + vx b) (vy a + vy b).
Definition vsub (a b : vec2 F) : vec2 F := Vec2 (vx a - vx b) (vy a - vy b).
Definition vmul (a b : vec2 F) : vec2 F := Vec2 (vx a * vx b) (vy a * vy b).
(** vector times scalar *)
Definition vscale (a : vec2 F) (k : F) : vec2 F := Vec2 (vx a * k) (vy a * k).
(** [vec4<f32>(v, z, w)] *)
Definition vec4_of (v : vec2 F) (z w : F) : vec4 F := Vec4 (vx v) (vy v) z w.

(** Line 25: [let world = inst_pos + in_pos * inst_size;] *)
Definition world_of (in_pos inst_pos inst_size : vec2 F) : vec2 F :=
  vadd inst_pos (vmul in_pos inst_size).

(** Line 26: [let screen = (world - u_camera.pan) * u_camera.zoom;] *)
Definition screen_of (u_camera : CameraUniform F) (world : vec2 F) : vec2 F :=
  vscale (vsub world (u_pan u_camera)) (u_zoom u_camera).

(** Lines 28-31: the [ndc] vector. *)
Definition ndc_of (u_camera : CameraUniform F) (screen : vec2 F) : vec2 F :=
  Vec2 ((vx screen / vx (u_canvas u_camera)) * flit 2 - flit 1)
       (flit 1 - (vy screen / vy (u_canvas u_camera)) * flit 2).

(** [vs_main] (lines 16-35).  The uniform [u_camera], a module-level
    binding in the source, is the first argument. *)
Definition vs_main (u_camera : CameraUniform F)
    (in_pos inst_pos inst_size : vec2 F) (inst_color : vec4 F) : VsOut F :=
  let world := world_of in_pos inst_pos inst_size in
  let screen := screen_of u_camera world in
  let ndc := ndc_of u_camera screen in
  mkVsOut (vec4_of ndc (flit 0) (flit 1)).

(** [fs_main] (lines 37-40): takes no input. *)
Definition fs_main : vec4 F :=
  Vec4 (flit 0.2) (flit 0.6) (flit 0.9) (flit 1).

(** The colour written for a fragment of a quad whose vertices were
    produced by [vs_main] with the given attributes: the vertex stage
    runs, its output carries the position only, and the fragment stage
    is [fs_main]. *)
Definition fragment_color (u_camera : CameraUniform F)
    (in_pos inst_pos inst_size : vec2 F) (inst_color : vec4 F) : vec4 F :=
  let _ := vs_main u_camera in_pos inst_pos inst_size inst_color in
  fs_main.
End Wgsl.

End Shader.

(* ===================================================================== *)
(** ** The transform pipeline and the camera of the design document *)
(* ===================================================================== *)

Module TransformPipeline.

(** RGBA colour of an instance. *)
Record RGBA (F : Type) := mkRGBA { red : F; green : F; blue : F; alpha : F }.
Arguments mkRGBA {F} _ _ _ _.
Arguments red {F} _.
Arguments green {F} _.
Arguments blue {F} _.
Arguments alpha {F} _.

(** InstanceRecord: position and size in world units, and a colour. *)
Record InstanceRecord (F : Type) := mkInstance {
  position : Point F;
  size : Point F;
  color : RGBA F
}.
Arguments mkInstance {F} _ _ _.
Arguments position {F} _.
Arguments size {F} _.
Arguments color {F} _.

(** Canvas size. *)
Record Canvas (F : Type) := mkCanvas { width : F; height : F }.
Arguments mkCanvas {F} _ _.
Arguments width {F} _.
Arguments height {F} _.

Section Pipeline.
Context {F : Type} {A : Arith F}.
Local Open Scope num_scope.

(** The four lines of section 4.3, written out per coordinate:
    world = instance.position + corner_offset * instance.size *)
Definition world_x (inst : InstanceRecord F) (corner_offset : Point F) : F :=
  x (position inst) + x corner_offset * x (size inst).
Definition world_y (inst : InstanceRecord F) (corner_offset : Point F) : F :=
  y (position inst) + y corner_offset * y (size inst).

(** screen = (world - camera.pan) * camera.zoom *)
Definition screen_x (camera : CameraView F) (wx : F) : F :=
  (wx - x (pan camera)) * zoom camera.
Definition screen_y (camera : CameraView F) (wy : F) : F :=
  (wy - y (pan camera)) * zoom camera.

(** ndc.x = (screen.x / canvas.width) * 2 - 1 *)
Definition ndc_x (canvas : Canvas F) (sx : F) : F :=
  (sx / width canvas) * flit 2 - flit 1.
(** ndc.y = 1 - (screen.y / canvas.height) * 2 *)
Definition ndc_y (canvas : Canvas F) (sy : F) : F :=
  flit 1 - (sy / height canvas) * flit 2.

(** The data the renderer hands to the shader: the vertex attributes of
    an instance and the uniform that projects a camera view and a
    canvas size (padding values are free). *)
Definition vec2_of_point (p : Point F) : Shader.vec2 F :=
  Shader.Vec2 (x p) (y p).
Definition vec4_of_rgba (c : RGBA F) : Shader.vec4 F :=
  Shader.Vec4 (red c) (green c) (blue c) (alpha c).
Definition uniform_of (camera : CameraView F) (canvas : Canvas F)
    (pad0 : F) (pad1 : Shader.vec2 F) : Shader.CameraUniform F :=
  Shader.mkCameraUniform (vec2_of_point (pan camera)) (zoom camera) pad0
    (Shader.Vec2 (width canvas) (height canvas)) pad1.
End Pipeline.

End TransformPipeline.

Module Camera.

Local Open Scope R_scope.

(** Modelled from the spec: the camera operation [zoomAtScreenPoint] lives
    in the wasm crate, which is not among the sources; this is the
    pivot-preserving zoom algorithm of section 4.1, in the document's
    words: world_pivot = pan + pivot_px / zoom_old. *)
Definition world_pivot (cam : CameraView R) (pivot_px : Point R) : Point R :=
  mkPoint (x (pan cam) + x pivot_px / zoom cam)
          (y (pan cam) + y pivot_px / zoom cam).

(** Modelled from the spec: zoom_new = zoom_old * multiplier and
    pan_new = world_pivot - pivot_px / zoom_new. *)
Definition pivot_zoom (cam : CameraView R) (pivot_px : Point R)
    (multiplier : R) : CameraView R :=
  let wp := world_pivot cam pivot_px in
  let zoom_new := zoom cam * multiplier in
  mkCameraView (mkPoint (x wp - x pivot_px / zoom_new)
                        (y wp - y pivot_px / zoom_new))
               zoom_new.

(** Modelled from the spec: [zoomAtScreenPoint] rejects the operation,
    leaving the state unchanged, when the multiplier is not positive or
    the resulting zoom would be non-positive or exceed the
    implementation-chosen maximum [zoom_max]; otherwise it applies
    [pivot_zoom]. *)
Definition zoomAtScreenPoint (zoom_max : R) (cam : CameraView R)
    (pivot_px : Point R) (zoom_multiplier : R) : CameraView R :=
  if Rle_dec zoom_multiplier 0 then cam
  else if Rle_dec (zoom cam * zoom_multiplier) 0 then cam
  else if Rlt_dec zoom_max (zoom cam * zoom_multiplier) then cam
  else pivot_zoom cam pivot_px zoom_multiplier.

End Camera.

(* ===================================================================== *)
(** ** App.tsx *)
(* ===================================================================== *)

Module Web.

(** [InputEvent] (lines 14-20), a tagged union. *)
Inductive InputEvent (F : Type) :=
| camera_pan_by_screen_delta (delta_px : Point F)
| camera_zoom_at_screen_point (pivot_px : Point F) (zoom_multiplier : F).
Arguments camera_pan_by_screen_delta {F} _.
Arguments camera_zoom_at_screen_point {F} _ _.

(** *** The JavaScript store

    The batch is an object [{ events: [...] }] that the listeners, the
    frame handler and the wasm side all reach through the one variable
    [batch]; it and its array live in a store and are named by their
    address.  The store records these two kinds of object only, the ones
    whose identity the component relies on.  The other objects the source
    allocates (the points of lines 66, 80-84 and 119, the events of lines
    80-84 and 121-125) are written once and never shared, and are
    modelled as values; the store says nothing about them. *)
Definition loc := nat.

Inductive JsObject (F : Type) :=
| ArrayObj (elems : list (InputEvent F))
| BatchObj (events : loc).
Arguments ArrayObj {F} _.
Arguments BatchObj {F} _.

(** *** DOM event payloads: the fields the listeners read *)
Record KeyboardEvent := mkKeyboardEvent { code : string }.

Record PointerEvent (F : Type) := mkPointerEvent {
  button : Z;
  clientX : F;
  clientY : F;
  pointerId : Z
}.
Arguments mkPointerEvent {F} _ _ _ _.
Arguments button {F} _.
Arguments clientX {F} _.
Arguments clientY {F} _.
Arguments pointerId {F} _.

Record WheelEvent (F : Type) := mkWheelEvent {
  wheelX : F;   (* clientX *)
  wheelY : F;   (* clientY *)
  deltaY : F
}.
Arguments mkWheelEvent {F} _ _ _.
Arguments wheelX {F} _.
Arguments wheelY {F} _.
Arguments deltaY {F} _.

(** What [canvasRef.getBoundingClientRect()] returns. *)
Record DOMRect (F : Type) := mkDOMRect { left : F; top : F }.
Arguments mkDOMRect {F} _ _.
Arguments left {F} _.
Arguments top {F} _.

(** What a call of [app.tick] does: it returns an object with a [camera]
    field, or it throws a value of the type [V] of JavaScript values. *)
Inductive TickOutcome (F V : Type) :=
| Returned (camera : CameraView F)
| Threw (err : V).
Arguments Returned {F V} _.
Arguments Threw {F V} _.

(** Host functions of the JavaScript runtime the component calls:
    [Number.prototype.toFixed] and [String(...)]. *)
Class Host (F V : Type) := {
  toFixed : F -> nat -> string;
  String_ : V -> string
}.

(** Progress of the asynchronous bootstrap (lines 131-160). *)
Inductive Stage :=
| LoadingModule    (* awaiting [import(...)] and [m.default()] *)
| CreatingApp      (* awaiting [m.App.new(canvasRef)] *)
| Ready.           (* [batch] assigned, first frame requested *)

(** What the environment does to the component: DOM events delivered to
    its listeners, the two resumptions of the bootstrap, the browser
    running the oldest pending animation-frame callback (with what
    [app.tick] does should the callback reach it), and disposal of the
    component. *)
Inductive Action (F V : Type) :=
| keydown (e : KeyboardEvent)
| keyup (e : KeyboardEvent)
| pointerdown (e : PointerEvent F)
| pointermove (e : PointerEvent F)
| pointerup (e : PointerEvent F)
| pointercancel (e : PointerEvent F)
| wheel (e : WheelEvent F) (rect : DOMRect F)
| wasm_loaded (version : string)
| app_created
| animation_frame (o : TickOutcome F V)
| cleanup.
Arguments keydown {F V} _.
Arguments keyup {F V} _.
Arguments pointerdown {F V} _.
Arguments pointermove {F V} _.
Arguments pointerup {F V} _.
Arguments pointercancel {F V} _.
Arguments wheel {F V} _ _.
Arguments wasm_loaded {F V} _.
Arguments app_created {F V}.
Arguments animation_frame {F V} _.
Arguments cleanup {F V}.

(** The calls the component makes on its environment, in order. *)
Inductive Effect (F : Type) :=
| preventDefault
| setPointerCapture (id : Z)
| releasePointerCapture (id : Z)
| push (array : loc) (ev : InputEvent F)      (* [batch.events.push(ev)] *)
| truncate (array : loc)                      (* [batch.events.length = 0] *)
| app_tick (arg : option loc) (seen : list (InputEvent F))
| setVer (text : string)
| setCameraText (text : string)
| App_new
| requestAnimationFrame (id : nat)
| cancelAnimationFrame (id : nat).
Arguments preventDefault {F}.
Arguments setPointerCapture {F} _.
Arguments releasePointerCapture {F} _.
Arguments push {F} _ _.
Arguments truncate {F} _.
Arguments app_tick {F} _ _.
Arguments setVer {F} _.
Arguments setCameraText {F} _.
Arguments App_new {F}.
Arguments requestAnimationFrame {F} _.
Arguments cancelAnimationFrame {F} _.

(** The state: the variables of [App] and of its [onMount] closure, the
    two signals, and the part of the host the component acts on. *)
Record State (F : Type) := mkState {
  (* lines 24-27 *)
  spaceDown : bool;
  isPanning : bool;
  lastPt : option (Point F);
  batch : option loc;
  (* lines 29-30 *)
  ver : string;
  cameraText : string;
  (* lines 33-35; [aborted] is [abortController.signal.aborted] *)
  rafId : nat;
  running : bool;
  aborted : bool;
  (* the bootstrap *)
  stage : Stage;
  (* the host: the store, the browser's list of pending animation-frame
     callbacks (every one of them is [frame]) and the last handle
     [requestAnimationFrame] returned *)
  heap : gmap loc (JsObject F);
  raf_pending : list nat;
  raf_last : nat
}.
Arguments mkState {F} _ _ _ _ _ _ _ _ _ _ _ _ _.
Arguments spaceDown {F} _.
Arguments isPanning {F} _.
Arguments lastPt {F} _.
Arguments batch {F} _.
Arguments ver {F} _.
Arguments cameraText {F} _.
Arguments rafId {F} _.
Arguments running {F} _.
Arguments aborted {F} _.
Arguments stage {F} _.
Arguments heap {F} _.
Arguments raf_pending {F} _.
Arguments raf_last {F} _.

Section Updates.
Context {F : Type}.
Implicit Types s : State F.

Definition set_spaceDown (v : bool) s : State F :=
  mkState v (isPanning s) (lastPt s) (batch s) (ver s) (cameraText s)
    (rafId s) (running s) (aborted s) (stage s) (heap s) (raf_pending s) (raf_last s).
Definition set_isPanning (v : bool) s : State F :=
  mkState (spaceDown s) v (lastPt s) (batch s) (ver s) (cameraText s)
    (rafId s) (running s) (aborted s) (stage s) (heap s) (raf_pending s) (raf_last s).
Definition set_lastPt (v : option (Point F)) s : State F :=
  mkState (spaceDown s) (isPanning s) v (batch s) (ver s) (cameraText s)
    (rafId s) (running s) (aborted s) (stage s) (heap s) (raf_pending s) (raf_last s).
Definition set_batch (v : option loc) s : State F :=
  mkState (spaceDown s) (isPanning s) (lastPt s) v (ver s) (cameraText s)
    (rafId s) (running s) (aborted s) (stage s) (heap s) (raf_pending s) (raf_last s).
Definition set_ver (v : string) s : State F :=
  mkState (spaceDown s) (isPanning s) (lastPt s) (batch s) v (cameraText s)
    (rafId s) (running s) (aborted s) (stage s) (heap s) (raf_pending s) (raf_last s).
Definition set_cameraText (v : string) s : State F :=
  mkState (spaceDown s) (isPanning s) (lastPt s) (batch s) (ver s) v
    (rafId s) (running s) (aborted s) (stage s) (heap s) (raf_pending s) (raf_last s).
Definition set_rafId (v : nat) s : State F :=
  mkState (spaceDown s) (isPanning s) (lastPt s) (batch s) (ver s) (cameraText s)
    v (running s) (aborted s) (stage s) (heap s) (raf_pending s) (raf_last s).
Definition set_running (v : bool) s : State F :=
  mkState (spaceDown s) (isPanning s) (lastPt s) (batch s) (ver s) (cameraText s)
    (rafId s) v (aborted s) (stage s) (heap s) (raf_pending s) (raf_last s).
Definition set_aborted (v : bool) s : State F :=
  mkState (spaceDown s) (isPanning s) (lastPt s) (batch s) (ver s) (cameraText s)
    (rafId s) (running s) v (stage s) (heap s) (raf_pending s) (raf_last s).
Definition set_stage (v : Stage) s : State F :=
  mkState (spaceDown s) (isPanning s) (lastPt s) (batch s) (ver s) (cameraText s)
    (rafId s) (running s) (aborted s) v (heap s) (raf_pending s) (raf_last s).
Definition set_heap (v : gmap loc (JsObject F)) s : State F :=
  mkState (spaceDown s) (isPanning s) (lastPt s) (batch s) (ver s) (cameraText s)
    (rafId s) (running s) (aborted s) (stage s) v (raf_pending s) (raf_last s).
Definition set_raf_pending (v : list nat) s : State F :=
  mkState (spaceDown s) (isPanning s) (lastPt s) (batch s) (ver s) (cameraText s)
    (rafId s) (running s) (aborted s) (stage s) (heap s) v (raf_last s).
Definition set_raf_last (v : nat) s : State F :=
  mkState (spaceDown s) (isPanning s) (lastPt s) (batch s) (ver s) (cameraText s)
    (rafId s) (running s) (aborted s) (stage s) (heap s) (raf_pending s) v.
End Updates.

Section Component.
Context {F V : Type} {A : Arith F} {H : Host F V}.
Local Open Scope num_scope.
Implicit Types s : State F.

(** *** Commands

    A handler is a state transformer that also lists the calls it makes
    on the environment. *)
Definition Cmd : Type := State F -> State F * list (Effect F).

Definition skip : Cmd := fun s => (s, []).
Definition assign (f : State F -> State F) : Cmd := fun s => (f s, []).
Definition call (e : Effect F) : Cmd := fun s => (s, [e]).
Definition seq (c1 c2 : Cmd) : Cmd := fun s =>
  let (s1, t1) := c1 s in
  let (s2, t2) := c2 s1 in
  (s2, t1 ++ t2).
Notation "c1 ;; c2" := (seq c1 c2) (at level 100, c2 at level 200, right associativity).

(** *** Reading and writing the batch through the store *)

(** The [events] field of the object at [b]. *)
Definition events_of (h : gmap loc (JsObject F)) (b : loc) : option loc :=
  match h !! b with
  | Some (BatchObj a) => Some a
  | _ => None
  end.

(** The elements of the array at [a]. *)
Definition elems_of (h : gmap loc (JsObject F)) (a : loc)
    : option (list (InputEvent F)) :=
  match h !! a with
  | Some (ArrayObj es) => Some es
  | _ => None
  end.

(** [batch.events]: the array the variable [batch] leads to. *)
Definition batch_array s : option loc :=
  match batch s with
  | Some b => events_of (heap s) b
  | None => None
  end.

(** The events a reader finds in [batch.events] (none when [batch] is
    null). *)
Definition batch_events s : list (InputEvent F) :=
  match batch_array s with
  | Some a => default [] (elems_of (heap s) a)
  | None => []
  end.

(** [batch.events.push(ev)]: the array object is updated in place.  The
    variable [batch], once assigned, always leads to an array (see
    [wf_batch]); where it would not, the source raises a [TypeError] and
    the model leaves the store as it is. *)
Definition events_push (ev : InputEvent F) : Cmd := fun s =>
  match batch_array s with
  | Some a =>
      match elems_of (heap s) a with
      | Some es => (set_heap (<[a := ArrayObj (es ++ [ev])]> (heap s)) s, [push a ev])
      | None => (s, [])
      end
  | None => (s, [])
  end.

(** [batch.events.length = 0]: the same array object, emptied. *)
Definition events_clear : Cmd := fun s =>
  match batch_array s with
  | Some a =>
      match elems_of (heap s) a with
      | Some _ => (set_heap (<[a := ArrayObj []]> (heap s)) s, [truncate a])
      | None => (s, [])
      end
  | None => (s, [])
  end.

(** [batch = { events: [] }] (line 137): a new array, then a new object
    whose [events] field holds the array's address. *)
Definition alloc_batch : Cmd := fun s =>
  let a := fresh (dom (heap s)) in
  let h1 := <[a := ArrayObj []]> (heap s) in
  let b := fresh (dom h1) in
  let h2 := <[b := BatchObj a]> h1 in
  (set_batch (Some b) (set_heap h2 s), []).

(** *** Signals and animation frames *)

Definition do_setVer (text : string) : Cmd :=
  assign (set_ver text) ;; call (setVer text).

Definition do_setCameraText (text : string) : Cmd :=
  assign (set_cameraText text) ;; call (setCameraText text).

(** [rafId = requestAnimationFrame(frame)]: the browser hands out a new
    non-zero handle and queues the callback. *)
Definition request_frame : Cmd := fun s =>
  let id := S (raf_last s) in
  (assign (set_raf_last id) ;;
   assign (set_raf_pending (raf_pending s ++ [id])) ;;
   call (requestAnimationFrame id) ;;
   assign (set_rafId id)) s.

(** [cancelAnimationFrame(id)] *)
Definition cancel_frame (id : nat) : Cmd := fun s =>
  (assign (set_raf_pending (filter (fun i => i <> id) (raf_pending s))) ;;
   call (cancelAnimationFrame id)) s.

(** *** The listeners *)

(** Lines 37-46. *)
Definition on_keydown (e : KeyboardEvent) : Cmd := fun s =>
  if String.eqb (code e) "Space"
  then (assign (set_spaceDown true) ;; call preventDefault) s
  else skip s.

(** Lines 48-59. *)
Definition on_keyup (e : KeyboardEvent) : Cmd := fun s =>
  if String.eqb (code e) "Space"
  then (assign (set_spaceDown false) ;;
        assign (set_isPanning false) ;;
        assign (set_lastPt None) ;;
        call preventDefault) s
  else skip s.

(** Lines 61-72. *)
Definition on_pointerdown (e : PointerEvent F) : Cmd := fun s =>
  if Z.eqb (button e) 0 && spaceDown s
  then (assign (set_isPanning true) ;;
        assign (set_lastPt (Some (mkPoint (clientX e) (clientY e)))) ;;
        call (setPointerCapture (pointerId e)) ;;
        call preventDefault) s
  else skip s.

(** Lines 74-88. *)
Definition on_pointermove (e : PointerEvent F) : Cmd := fun s =>
  match isPanning s, lastPt s, batch s with
  | true, Some last, Some _ =>
      let dx := clientX e - x last in
      let dy := clientY e - y last in
      (events_push (camera_pan_by_screen_delta (mkPoint dx dy)) ;;
       assign (set_lastPt (Some (mkPoint (clientX e) (clientY e))))) s
  | _, _, _ => skip s
  end.

(** Lines 90-100 and 102-112: [pointerup] and [pointercancel] have the
    same body. *)
Definition on_pointerup (e : PointerEvent F) : Cmd := fun s =>
  if isPanning s
  then (assign (set_isPanning false) ;;
        assign (set_lastPt None) ;;
        call (releasePointerCapture (pointerId e))) s
  else skip s.

Definition on_pointercancel (e : PointerEvent F) : Cmd := on_pointerup e.

(** Line 120: [Math.exp(-e.deltaY * 0.0015)]. *)
Definition zoomMultiplier (deltaY : F) : F := fexp ((- deltaY) * flit 0.0015).

(** Lines 114-129. *)
Definition on_wheel (e : WheelEvent F) (rect : DOMRect F) : Cmd := fun s =>
  match batch s with
  | None => skip s
  | Some _ =>
      let pivot := mkPoint (wheelX e - left rect) (wheelY e - top rect) in
      (events_push (camera_zoom_at_screen_point pivot (zoomMultiplier (deltaY e))) ;;
       call preventDefault) s
  end.

(** *** The bootstrap and the frame handler *)

(** Line 150: the text shown for a camera view. *)
Definition camera_text (camera : CameraView F) : string :=
  ("pan=(" ++ toFixed (x (pan camera)) 2 ++ ", " ++ toFixed (y (pan camera)) 2
   ++ "), zoom=" ++ toFixed (zoom camera) 3)%string.

(** Line 153: the text shown for a thrown value. *)
Definition error_text (err : V) : string :=
  ("tick error: " ++ String_ err)%string.

(** [app.tick(batch)]: the wasm side is handed the reference and reads
    the events it leads to. *)
Definition tick_call : Cmd := fun s =>
  call (app_tick (batch s) (batch_events s)) s.

(** [frame] (lines 139-157).  In the [try] block only [app.tick] can
    throw (the returned object has the shape the cast on line 142
    declares), so the block either runs to its end or leaves for the
    [catch] clause straight from the call. *)
Definition frame (o : TickOutcome F V) : Cmd := fun s =>
  if negb (running s) then skip s
  else
    (match o with
     | Returned camera =>
         tick_call ;;
         (fun s1 => match batch s1 with Some _ => events_clear s1 | None => skip s1 end) ;;
         do_setCameraText (camera_text camera)
     | Threw err =>
         tick_call ;;
         do_setCameraText (error_text err)
     end ;;
     request_frame) s.

(** Lines 132-136: the module is loaded and initialised, the version is
    shown and the construction of the application starts. *)
Definition on_wasm_loaded (version : string) : Cmd := fun s =>
  match stage s with
  | LoadingModule =>
      (do_setVer version ;; call App_new ;; assign (set_stage CreatingApp)) s
  | _ => skip s
  end.

(** Lines 136-159: the application exists; the batch is created and the
    first frame is requested. *)
Definition on_app_created : Cmd := fun s =>
  match stage s with
  | CreatingApp =>
      (alloc_batch ;; request_frame ;; assign (set_stage Ready)) s
  | _ => skip s
  end.

(** [onCleanup] (lines 162-168); [abortController.abort()] removes every
    listener registered with the signal. *)
Definition on_cleanup : Cmd :=
  assign (set_running false) ;;
  (fun s => if Nat.eqb (rafId s) 0 then skip s else cancel_frame (rafId s) s) ;;
  assign (set_aborted true).

(** A listener registered with [{ signal: abortController.signal }] is
    called only while the signal has not fired. *)
Definition listener (handler : Cmd) : Cmd := fun s =>
  if aborted s then skip s else handler s.

(** The browser runs the oldest pending animation-frame callback. *)
Definition on_animation_frame (o : TickOutcome F V) : Cmd := fun s =>
  match raf_pending s with
  | [] => skip s
  | _ :: rest => (assign (set_raf_pending rest) ;; frame o) s
  end.

Definition step (s : State F) (a : Action F V) : State F * list (Effect F) :=
  match a with
  | keydown e => listener (on_keydown e) s
  | keyup e => listener (on_keyup e) s
  | pointerdown e => listener (on_pointerdown e) s
  | pointermove e => listener (on_pointermove e) s
  | pointerup e => listener (on_pointerup e) s
  | pointercancel e => listener (on_pointercancel e) s
  | wheel e rect => listener (on_wheel e rect) s
  | wasm_loaded version => on_wasm_loaded version s
  | app_created => on_app_created s
  | animation_frame o => on_animation_frame o s
  | cleanup => on_cleanup s
  end.

(** A run: the actions in order, with the calls they make. *)
Fixpoint run (s : State F) (acts : list (Action F V)) : State F * list (Effect F) :=
  match acts with
  | [] => (s, [])
  | a :: rest =>
      let (s1, t1) := step s a in
      let (s2, t2) := run s1 rest in
      (s2, t1 ++ t2)
  end.

(** The state when [onMount] has run (lines 23-35): listeners
    registered, bootstrap started and suspended at its first [await]. *)
Definition init : State F :=
  mkState false false None None "(loading)" "(no data)" 0 true false
    LoadingModule ∅ [] 0.

(** *** Reading a trace *)

(** The events pushed, in order. *)
Fixpoint pushes_of (t : list (Effect F)) : list (InputEvent F) :=
  match t with
  | [] => []
  | push _ ev :: t' => ev :: pushes_of t'
  | _ :: t' => pushes_of t'
  end.

(** What each call of [app.tick] was given, in order. *)
Fixpoint ticks_of (t : list (Effect F)) : list (list (InputEvent F)) :=
  match t with
  | [] => []
  | app_tick _ seen :: t' => seen :: ticks_of t'
  | _ :: t' => ticks_of t'
  end.

(** The texts written to the camera line of the HUD. *)
Fixpoint camera_texts_of (t : list (Effect F)) : list string :=
  match t with
  | [] => []
  | setCameraText text :: t' => text :: camera_texts_of t'
  | _ :: t' => camera_texts_of t'
  end.

(** The pan deltas pushed, in order. *)
Fixpoint pan_deltas_of (t : list (Effect F)) : list (Point F) :=
  match t with
  | [] => []
  | push _ (camera_pan_by_screen_delta d) :: t' => d :: pan_deltas_of t'
  | _ :: t' => pan_deltas_of t'
  end.

(** What an array holding [es] holds after the calls of a trace, if every
    [push] and every truncation in it is applied to that array: a [push]
    appends its event at the end, a truncation empties the array. *)
Fixpoint batch_after (es : list (InputEvent F)) (t : list (Effect F))
    : list (InputEvent F) :=
  match t with
  | [] => es
  | push _ ev :: t' => batch_after (es ++ [ev]) t'
  | truncate _ :: t' => batch_after [] t'
  | _ :: t' => batch_after es t'
  end.

(** The variable [batch] leads to a batch object whose [events] field
    leads to an array, a different object. *)
Definition wf_batch s : Prop :=
  exists b a es,
    batch s = Some b /\ heap s !! b = Some (BatchObj a) /\
    heap s !! a = Some (ArrayObj es) /\ a <> b.

(** Before the bootstrap has finished there is no batch, nothing in the
    store and no frame requested; afterwards the batch is in place. *)
Definition unbooted s : Prop :=
  batch s = None /\ heap s = ∅ /\ raf_pending s = [] /\ rafId s = 0 /\
  stage s <> Ready.

Definition booted s : Prop :=
  wf_batch s /\ stage s = Ready /\ rafId s <> 0 /\
  (raf_pending s = [] \/ raf_pending s = [rafId s]).

Definition inv s : Prop := unbooted s \/ booted s.

(** The first call of [app.tick] in a trace: the events pushed before it
    (after [acc]) and the events it was given. *)
Fixpoint first_tick_from (acc : list (InputEvent F)) (t : list (Effect F))
    : option (list (InputEvent F) * list (InputEvent F)) :=
  match t with
  | [] => None
  | app_tick _ seen :: _ => Some (acc, seen)
  | push _ ev :: t' => first_tick_from (acc ++ [ev]) t'
  | _ :: t' => first_tick_from acc t'
  end.

Definition first_tick (t : list (Effect F)) := first_tick_from [] t.

(** Actions that deliver a DOM event to a listener of the component. *)
Definition is_dom_event (a : Action F V) : bool :=
  match a with
  | keydown _ | keyup _ | pointerdown _ | pointermove _ | pointerup _
  | pointercancel _ | wheel _ _ => true
  | wasm_loaded _ | app_created | animation_frame _ | cleanup => false
  end.

(** Actions in which [app.tick], if called, returns. *)
Definition tick_returns (a : Action F V) : Prop :=
  match a with
  | animation_frame (Threw _) => False
  | _ => True
  end.

(** What can happen while a drag goes on without interrupting it: the
    pointer moves, the wheel turns, keys go down (the repeats of the held
    space bar among them), keys other than the space bar go up, frames
    are rendered, the bootstrap makes progress.  What ends or restarts a
    drag is left out: the space bar going up, a pointer going down, up or
    being cancelled, and cleanup. *)
Definition during_drag (a : Action F V) : Prop :=
  match a with
  | pointermove _ | wheel _ _ | animation_frame _
  | wasm_loaded _ | app_created => True
  | keydown _ => True
  | keyup e => String.eqb (code e) "Space" = false
  | pointerdown _ | pointerup _ | pointercancel _ | cleanup => False
  end.

(** The pointer positions of the [pointermove] events of a run. *)
Fixpoint moves_of (acts : list (Action F V)) : list (Point F) :=
  match acts with
  | [] => []
  | pointermove e :: rest => mkPoint (clientX e) (clientY e) :: moves_of rest
  | _ :: rest => moves_of rest
  end.

Definition point_add (p q : Point F) : Point F := mkPoint (x p + x q) (y p + y q).
Definition point_sub (p q : Point F) : Point F := mkPoint (x p - x q) (y p - y q).

Definition point_sum (ps : list (Point F)) : Point F :=
  fold_right point_add (mkPoint (flit 0) (flit 0)) ps.

(** Successive differences of a path that starts at [from]. *)
Fixpoint steps_from (from : Point F) (path : list (Point F)) : list (Point F) :=
  match path with
  | [] => []
  | p :: rest => point_sub p from :: steps_from p rest
  end.

(** Where a path that starts at [from] ends. *)
Fixpoint path_end (from : Point F) (path : list (Point F)) : Point F :=
  match path with
  | [] => from
  | p :: rest => path_end p rest
  end.

(** The two shapes a step can have, as seen from the batch: either
    [app.tick] is not called and the batch grows by what the step pushes,
    or the step is a due frame of the running loop, which calls
    [app.tick] first, with the batch as it stands, pushes nothing, and
    leaves the batch empty if the tick returned and as it was if the tick
    threw. *)
Definition step_shape s (a : Action F V) : Prop :=
  (ticks_of (snd (step s a)) = [] /\
   batch_events (fst (step s a)) = batch_events s ++ pushes_of (snd (step s a)))
  \/ (exists o rest, a = animation_frame o /\ running s = true /\
        raf_pending s <> [] /\
        snd (step s a) = app_tick (batch s) (batch_events s) :: rest /\
        ticks_of rest = [] /\ pushes_of rest = [] /\
        batch_events (fst (step s a))
        = match o with Returned _ => [] | Threw _ => batch_events s end).

(** *** Further vocabulary: kinds of actions and calls *)

(** The pointer ids passed to [setPointerCapture] and to
    [releasePointerCapture], in order. *)
Fixpoint captures_of (t : list (Effect F)) : list Z :=
  match t with
  | [] => []
  | setPointerCapture id :: t' => id :: captures_of t'
  | _ :: t' => captures_of t'
  end.

Fixpoint releases_of (t : list (Effect F)) : list Z :=
  match t with
  | [] => []
  | releasePointerCapture id :: t' => id :: releases_of t'
  | _ :: t' => releases_of t'
  end.

(** The space bar going down (the test of line 40). *)
Definition is_space_keydown (a : Action F V) : bool :=
  match a with
  | keydown e => String.eqb (code e) "Space"
  | _ => false
  end.

Definition is_pointerdown (a : Action F V) : bool :=
  match a with
  | pointerdown _ => true
  | _ => false
  end.

(** The primary button going down (the first test of line 64). *)
Definition is_primary_pointerdown (a : Action F V) : bool :=
  match a with
  | pointerdown e => Z.eqb (button e) 0
  | _ => false
  end.

(** The three events that end a pan: the button goes up, the pointer is
    cancelled, the space bar goes up. *)
Definition is_pan_end (a : Action F V) : bool :=
  match a with
  | pointerup _ | pointercancel _ => true
  | keyup e => String.eqb (code e) "Space"
  | _ => false
  end.

Definition is_animation_frame (a : Action F V) : bool :=
  match a with
  | animation_frame _ => true
  | _ => false
  end.

Definition is_cleanup (a : Action F V) : bool :=
  match a with
  | cleanup => true
  | _ => false
  end.

(** The text the camera line of the HUD shows after a trace, when it
    showed [text] before: that of the last call of [setCameraText]. *)
Fixpoint camera_text_after (text : string) (t : list (Effect F)) : string :=
  match t with
  | [] => text
  | setCameraText text' :: t' => camera_text_after text' t'
  | _ :: t' => camera_text_after text t'
  end.

(** Whether a pointer position has been sampled ([lastPt] is not null). *)
Definition has_sample s : bool :=
  match lastPt s with
  | Some _ => true
  | None => false
  end.

(** The frame loop of a component that has not been cleaned up: it runs,
    the abort signal has not fired, and once the bootstrap has finished
    exactly one animation-frame callback is pending, the one whose handle
    is in [rafId]. *)
Definition loop_alive s : Prop :=
  running s = true /\ aborted s = false /\
  match stage s with
  | Ready => raf_pending s = [rafId s] /\ rafId s <> 0
  | _ => raf_pending s = [] /\ rafId s = 0
  end.

(** Of batch objects and arrays, the store holds none, or the one batch
    object and its array. *)
Definition store_shape s : Prop :=
  unbooted s
  \/ exists b ar es,
       ar <> b /\ stage s = Ready /\ batch s = Some b /\
       heap s = <[b := BatchObj ar]> (<[ar := ArrayObj es]> ∅).

End Component.

(** A host for examples on the reals: thrown values are strings, shown
    as they are; numbers are shown by a placeholder, since no property
    below depends on the digits [toFixed] prints. *)
Definition Host_example : Host R string := {|
  toFixed := fun _ _ => "#"%string;
  String_ := fun v => v
|}.

(** Example runs on the reals, with [Host_example].  The bootstrap
    finishes; then the space bar goes down, the primary button is pressed
    at (10, 10) and the pointer moves to (15, 10). *)
Definition example_boot : list (Action R string) :=
  [wasm_loaded "0.1.0"%string; app_created].

Definition example_press : list (Action R string) :=
  [keydown (mkKeyboardEvent "Space"%string);
   pointerdown (mkPointerEvent 0%Z 10%R 10%R 1%Z)].

Definition example_drag : list (Action R string) :=
  example_boot ++ example_press ++
  [pointermove (mkPointerEvent 0%Z 15%R 10%R 1%Z)].

(** The same gesture made while the module is still loading, and what
    follows once the application exists: one more move, to (20, 10), and
    a frame. *)
Definition example_early : list (Action R string) :=
  wasm_loaded "0.1.0"%string :: example_press ++
  [pointermove (mkPointerEvent 0%Z 15%R 10%R 1%Z);
   wheel (mkWheelEvent 400%R 300%R 120%R) (mkDOMRect 0%R 0%R)].

Definition example_camera : CameraView R :=
  mkCameraView (mkPoint 0%R 0%R) 1%R.

Definition example_late : list (Action R string) :=
  [app_created;
   pointermove (mkPointerEvent 0%Z 20%R 10%R 1%Z);
   animation_frame (Returned example_camera)].

(** What goes on during a drag: a move, a turn of the wheel, a frame,
    another move. *)
Definition example_moves : list (Action R string) :=
  [pointermove (mkPointerEvent 0%Z 15%R 10%R 1%Z);
   wheel (mkWheelEvent 400%R 300%R 120%R) (mkDOMRect 0%R 0%R);
   animation_frame (Returned example_camera);
   pointermove (mkPointerEvent 0%Z 18%R 14%R 1%Z)].

(** A drag with the space bar held: a move, a repeat of the space bar's
    [keydown], a turn of the wheel, another key released, another move;
    no frame in between. *)
Definition example_held : list (Action R string) :=
  [pointermove (mkPointerEvent 0%Z 15%R 10%R 1%Z);
   keydown (mkKeyboardEvent "Space"%string);
   wheel (mkWheelEvent 400%R 300%R 120%R) (mkDOMRect 0%R 0%R);
   keyup (mkKeyboardEvent "KeyA"%string);
   pointermove (mkPointerEvent 0%Z 18%R 14%R 1%Z)].

End Web.

(* ===================================================================== *)
(** ** JavaScript numbers: IEEE-754 binary64 *)
(* ===================================================================== *)

Module Binary64.

(** A JavaScript [number] is a binary64 value.  The format, its rounding
    and the four operations are those of the Standard Library's
    specification of IEEE-754 arithmetic, [SpecFloat], at precision 53
    and maximal exponent 1024: zeros and infinities of either sign, NaN,
    and finite values [m * 2^e], subnormal ones included. *)
Definition number : Type := SpecFloat.spec_float.
Definition prec : Z := 53.
Definition emax : Z := 1024.

(** The number nearest to an integer. *)
Definition of_Z (z : Z) : number :=
  SpecFloat.binary_normalize prec emax z 0 false.

(** The value of a decimal literal [n / d]: the number nearest to the
    quotient.  Numerator and denominator of the literals of the source
    are below 2^53, hence exact, and the division rounds once. *)
Definition of_Q (q : Q) : number :=
  SpecFloat.SFdiv prec emax (of_Z (Qnum q)) (of_Z (Zpos (Qden q))).

Definition pow2 (e : Z) : R :=
  match e with
  | Z0 => 1%R
  | Zpos p => IZR (Z.pow_pos 2 p)
  | Zneg p => (/ IZR (Z.pow_pos 2 p))%R
  end.

(** The real number a finite number stands for (0 for the others). *)
Definition to_R (x : number) : R :=
  match x with
  | SpecFloat.S754_finite s m e =>
      (IZR (if s then Zneg m else Zpos m) * pow2 e)%R
  | _ => 0%R
  end.

Definition floor (r : R) : Z := (up r - 1)%Z.

(** The integer nearest to [r], the even one of the two at a tie. *)
Definition nearest_even (r : R) : Z :=
  let f := floor r in
  if Rlt_dec (r - IZR f) (1 / 2) then f
  else if Rlt_dec (1 / 2) (r - IZR f) then (f + 1)%Z
  else if Z.even f then f else (f + 1)%Z.

(** Rounding of a real number to the nearest number, ties to even.  With
    [2^e <= |r| < 2^(e+1)], the result is a multiple of [2^q] where
    [q = max (e - 52) (-1074)] (53 significant bits, fewer in the
    subnormal range); [binary_normalize] then yields the canonical
    representation, an infinity on overflow and a zero on underflow. *)
Definition round (r : R) : number :=
  if Req_dec_T r 0 then SpecFloat.S754_zero false
  else
    let a := Rabs r in
    let e := floor (ln a / ln 2) in
    let q := Z.max (e - 52) (-1074) in
    let m := nearest_even (a * pow2 (- q)) in
    if Rlt_dec r 0
    then SpecFloat.binary_normalize prec emax (- m) q true
    else SpecFloat.binary_normalize prec emax m q false.

(** [Math.exp]: NaN for NaN, 1 for either zero, +Infinity for +Infinity,
    +0 for -Infinity, and otherwise an approximation of the exponential,
    taken here to be the correctly rounded one.  (ECMAScript leaves the
    last bit to the implementation; the argument at which the function
    is evaluated below has an exponential far below the least positive
    number, where every implementation returns +0.) *)
Definition Math_exp (x : number) : number :=
  match x with
  | SpecFloat.S754_nan => SpecFloat.S754_nan
  | SpecFloat.S754_infinity false => SpecFloat.S754_infinity false
  | SpecFloat.S754_infinity true => SpecFloat.S754_zero false
  | SpecFloat.S754_zero _ => of_Z 1
  | SpecFloat.S754_finite _ _ _ => round (exp (to_R x))
  end.

(** JavaScript arithmetic. *)
#[export] Instance Arith_binary64 : Arith number :=
  Build_Arith number
    (SpecFloat.SFadd prec emax) (SpecFloat.SFsub prec emax)
    (SpecFloat.SFmul prec emax) (SpecFloat.SFdiv prec emax)
    SpecFloat.SFopp Math_exp of_Q.

(** [x > 0] *)
Definition gt_zero (x : number) : bool :=
  SpecFloat.SFltb (SpecFloat.S754_zero false) x.

(** [Number.isFinite(x)] *)
Definition is_finite (x : number) : bool :=
  match x with
  | SpecFloat.S754_zero _ | SpecFloat.S754_finite _ _ _ => true
  | _ => false
  end.

(** A host for examples on JavaScript numbers, like [Host_example]. *)
Definition Host_binary64 : Web.Host number string := {|
  Web.toFixed := fun _ _ => "#"%string;
  Web.String_ := fun v => v
|}.

(** The bootstrap finishes; then the wheel is turned by deltaY = 1000000
    with the pointer at (400, 300), the canvas sitting at the origin of
    the viewport. *)
Definition example_boot64 : list (Web.Action number string) :=
  [Web.wasm_loaded "0.1.0"%string; Web.app_created].

Definition example_wheel : Web.WheelEvent number :=
  Web.mkWheelEvent (of_Z 400) (of_Z 300) (of_Z 1000000).

Definition example_rect : Web.DOMRect number :=
  Web.mkDOMRect (of_Z 0) (of_Z 0).

End Binary64.

(* ===================================================================== *)
(** ** Proof steps for the component *)
(* ===================================================================== *)

(** Unfolding of the handlers and of the state updates, then of the
    store operations. *)
Ltac unfold_cmds :=
  unfold Web.step, Web.listener, Web.on_keydown, Web.on_keyup,
    Web.on_pointerdown, Web.on_pointermove, Web.on_pointercancel,
    Web.on_pointerup, Web.on_wheel, Web.on_wasm_loaded, Web.on_app_created,
    Web.on_animation_frame, Web.on_cleanup, Web.frame, Web.tick_call,
    Web.request_frame, Web.cancel_frame, Web.do_setVer,
    Web.do_setCameraText, Web.seq, Web.assign, Web.call, Web.skip in *;
  unfold Web.set_spaceDown, Web.set_isPanning, Web.set_lastPt, Web.set_batch,
    Web.set_ver, Web.set_cameraText, Web.set_rafId, Web.set_running,
    Web.set_aborted, Web.set_stage, Web.set_raf_pending, Web.set_raf_last in *.

Ltac unfold_store :=
  unfold Web.events_push, Web.events_clear, Web.batch_events, Web.batch_array,
    Web.events_of, Web.elems_of, Web.set_heap in *.

(** Case analysis on the next boolean test or on the next variable a
    handler branches on. *)
Ltac break_step :=
  match goal with
  | |- context [if ?c then _ else _] =>
      match type of c with bool => destruct c eqn:?; simpl end
  | |- context [match ?x with _ => _ end] => is_var x; destruct x eqn:?; simpl
  end.

(** Case analysis on the next lookup in the store. *)
Ltac break_store :=
  match goal with
  | |- context [match @lookup _ _ _ _ ?k ?m with _ => _ end] =>
      destruct (@lookup _ _ _ _ k m) eqn:?; simpl
  end.

(** A handler, taken apart along all its branches. *)
Ltac crunch :=
  unfold_cmds; unfold_store; simpl;
  repeat (first [break_step | break_store]).

(* ===================================================================== *)
(** ** Properties of the shader *)
(* ===================================================================== *)

Section ShaderProperties.
Import Shader TransformPipeline.
Local Open Scope R_scope.

Lemma flit_R_0 : flit (F:=R) 0 = 0.
Proof. simpl. unfold Q2R. simpl. lra. Qed.

Lemma flit_R_1 : flit (F:=R) 1 = 1.
Proof. simpl. unfold Q2R. simpl. lra. Qed.

Lemma flit_R_2 : flit (F:=R) 2 = 2.
Proof. simpl. unfold Q2R. simpl. lra. Qed.

(** The vertex shader computes the pipeline of section 4.3 whatever the
    arithmetic: the same operations in the same order. *)
Lemma vs_main_pipeline {F : Type} {A : Arith F}
    (camera : CameraView F) (canvas : Canvas F) (pad0 : F) (pad1 : vec2 F)
    (inst : InstanceRecord F) (corner_offset : Point F) :
  pos (vs_main (uniform_of camera canvas pad0 pad1)
         (vec2_of_point corner_offset) (vec2_of_point (position inst))
         (vec2_of_point (size inst)) (vec4_of_rgba (color inst)))
  = Vec4 (ndc_x canvas (screen_x camera (world_x inst corner_offset)))
         (ndc_y canvas (screen_y camera (world_y inst corner_offset)))
         (flit 0) (flit 1).
Proof. reflexivity. Qed.

(** On the reals, [ndc_y] is strictly decreasing in the screen ordinate
    when the canvas height is positive. *)
Lemma ndc_y_antitone (canvas : Canvas R) (sy sy' : R) :
  0 < height canvas -> sy < sy' -> ndc_y canvas sy' < ndc_y canvas sy.
Proof.
  intros Hh Hs. unfold ndc_y. rewrite flit_R_1, flit_R_2. simpl.
  assert (sy / height canvas < sy' / height canvas).
  { unfold Rdiv. apply Rmult_lt_compat_r; [apply Rinv_0_lt_compat|]; assumption. }
  lra.
Qed.

(** C1.  For every camera, canvas, instance and corner offset, the clip
    position [vs_main] returns is the pipeline of section 4.3 applied to
    that corner: world = position + corner_offset * size,
    screen = (world - pan) * zoom, ndc.x = (screen.x / width) * 2 - 1,
    ndc.y = 1 - (screen.y / height) * 2, with z = 0 and w = 1; and the Y
    axis is flipped: on a canvas of positive height, of two vertices the
    one with the larger screen.y gets the smaller ndc.y. *)
Theorem vs_main_transform
    (camera : CameraView R) (canvas : Canvas R) (pad0 : R) (pad1 : vec2 R)
    (inst : InstanceRecord R) (corner_offset : Point R) :
  let vertex (i : InstanceRecord R) (c : Point R) :=
    pos (vs_main (uniform_of camera canvas pad0 pad1)
           (vec2_of_point c) (vec2_of_point (position i))
           (vec2_of_point (size i)) (vec4_of_rgba (color i))) in
  let screen_y_of (i : InstanceRecord R) (c : Point R) :=
    (y (position i) + y c * y (size i) - y (pan camera)) * zoom camera in
  let world_x := x (position inst) + x corner_offset * x (size inst) in
  let world_y := y (position inst) + y corner_offset * y (size inst) in
  let screen_x := (world_x - x (pan camera)) * zoom camera in
  let screen_y := (world_y - y (pan camera)) * zoom camera in
  vertex inst corner_offset
  = Vec4 (screen_x / width canvas * 2 - 1) (1 - screen_y / height canvas * 2) 0 1
  /\ (forall (inst' : InstanceRecord R) (corner_offset' : Point R),
        0 < height canvas ->
        screen_y_of inst corner_offset < screen_y_of inst' corner_offset' ->
        cy (vertex inst' corner_offset') < cy (vertex inst corner_offset)).
Proof.
  intros vertex screen_y_of world_x world_y screen_x screen_y. split.
  - unfold vertex. rewrite vs_main_pipeline, flit_R_0, flit_R_1.
    unfold ndc_x, ndc_y. rewrite flit_R_1, flit_R_2. reflexivity.
  - intros inst' corner' Hh Hlt. unfold vertex.
    rewrite !vs_main_pipeline. cbn [cy].
    apply ndc_y_antitone; [exact Hh | exact Hlt].
Qed.

(** The Y flip, observed on a canvas of 800 by 600 with the default
    camera: the lower-left corner of a 100 by 100 quad at the origin lies
    below its upper-left corner in clip space. *)
Lemma vs_main_transform_witness :
  let camera := mkCameraView (mkPoint 0 0) 1 in
  let canvas := mkCanvas 800 600 in
  let inst := mkInstance (mkPoint 0 0) (mkPoint 100 100) (mkRGBA 1 0 0 1) in
  let vertex (c : Point R) :=
    pos (vs_main (uniform_of camera canvas 0 (Vec2 0 0))
           (vec2_of_point c) (vec2_of_point (position inst))
           (vec2_of_point (size inst)) (vec4_of_rgba (color inst))) in
  cy (vertex (mkPoint 0 1)) < cy (vertex (mkPoint 0 0)).
Proof.
  intros camera canvas inst vertex.
  apply (proj2 (vs_main_transform camera canvas 0 (Vec2 0 0) inst (mkPoint 0 0))
           inst (mkPoint 0 1)).
  - simpl. lra.
  - simpl. lra.
Defined.

(** The fragment stage never sees the instance colour. *)
Lemma fragment_color_constant {F : Type} {A : Arith F}
    (u : CameraUniform F) (in_pos inst_pos inst_size : vec2 F) (c c' : vec4 F) :
  fragment_color u in_pos inst_pos inst_size c
  = fragment_color u in_pos inst_pos inst_size c'.
Proof. reflexivity. Qed.

(** C4.  The colour written for an instance is the constant
    (0.2, 0.6, 0.9, 1.0) of [fs_main], not the instance's colour: a red
    instance is drawn in that blue. *)
Theorem fragment_color_of_red_instance
    (camera : CameraView R) (canvas : Canvas R) (corner_offset : Point R) :
  let red_inst := mkInstance (mkPoint 0 0) (mkPoint 1 1) (mkRGBA 1 0 0 1) in
  let drawn :=
    fragment_color (uniform_of camera canvas 0 (Vec2 0 0))
      (vec2_of_point corner_offset) (vec2_of_point (position red_inst))
      (vec2_of_point (size red_inst)) (vec4_of_rgba (color red_inst)) in
  drawn = Vec4 (2 / 10) (6 / 10) (9 / 10) 1
  /\ drawn <> vec4_of_rgba (color red_inst).
Proof.
  intros red_inst drawn.
  assert (E : drawn = Vec4 (2 / 10) (6 / 10) (9 / 10) 1).
  { unfold drawn, fragment_color, fs_main. simpl. unfold Q2R. simpl.
    f_equal; lra. }
  split; [exact E|].
  rewrite E. unfold red_inst, vec4_of_rgba. simpl.
  intros Heq. apply (f_equal cx) in Heq. simpl in Heq. lra.
Qed.

End ShaderProperties.

(* ===================================================================== *)
(** ** Pivot-preserving zoom against the shader's screen transform *)
(* ===================================================================== *)

Section CameraProperties.
Import Shader TransformPipeline Camera.
Local Open Scope R_scope.

(** Where the shader puts a world point on the screen, for a camera view. *)
Lemma screen_of_view (cam : CameraView R) (canvas : Canvas R) (pad0 : R)
    (pad1 : vec2 R) (w : Point R) :
  screen_of (uniform_of cam canvas pad0 pad1) (vec2_of_point w)
  = Vec2 ((x w - x (pan cam)) * zoom cam) ((y w - y (pan cam)) * zoom cam).
Proof. reflexivity. Qed.

(** The world point under a pixel is unique when the zoom is not zero. *)
Lemma screen_of_inj (cam : CameraView R) (canvas : Canvas R) (pad0 : R)
    (pad1 : vec2 R) (w : Point R) (pivot_px : Point R) :
  zoom cam <> 0 ->
  screen_of (uniform_of cam canvas pad0 pad1) (vec2_of_point w)
    = vec2_of_point pivot_px ->
  w = world_pivot cam pivot_px.
Proof.
  intros Hz Hs. rewrite screen_of_view in Hs. unfold vec2_of_point in Hs.
  injection Hs as Hx Hy. destruct w as [wx wy]. unfold world_pivot.
  simpl in *. f_equal.
  - rewrite <- Hx. field. exact Hz.
  - rewrite <- Hy. field. exact Hz.
Qed.

(** After [pivot_zoom] the old world pivot is again under the pixel. *)
Lemma pivot_zoom_fixes_pivot (cam : CameraView R) (canvas : Canvas R)
    (pad0 : R) (pad1 : vec2 R) (pivot_px : Point R) (multiplier : R) :
  zoom cam <> 0 -> multiplier <> 0 ->
  screen_of (uniform_of (pivot_zoom cam pivot_px multiplier) canvas pad0 pad1)
    (vec2_of_point (world_pivot cam pivot_px))
  = vec2_of_point pivot_px.
Proof.
  intros Hz Hm. rewrite screen_of_view. unfold vec2_of_point, pivot_zoom, world_pivot.
  simpl. f_equal; field; split; assumption.
Qed.

(** C2.  Pivot invariance.  For a camera with positive zoom, any pivot
    pixel and any positive multiplier: a world point that the shader's
    screen transform (world - pan) * zoom sends to the pivot is the point
    pan + pivot / zoom, that point is indeed sent to the pivot, and it is
    still sent to the pivot after zoom_new = zoom_old * multiplier,
    pan_new = (pan + pivot / zoom_old) - pivot / zoom_new, both for the
    bare update and for [zoomAtScreenPoint] with any maximum. *)
Theorem pivot_invariance (cam : CameraView R) (canvas : Canvas R) (pad0 : R)
    (pad1 : vec2 R) (pivot_px : Point R) (multiplier zoom_max : R)
    (w : Point R) :
  0 < zoom cam -> 0 < multiplier ->
  screen_of (uniform_of cam canvas pad0 pad1) (vec2_of_point w)
    = vec2_of_point pivot_px ->
  w = world_pivot cam pivot_px
  /\ screen_of (uniform_of cam canvas pad0 pad1)
       (vec2_of_point (world_pivot cam pivot_px)) = vec2_of_point pivot_px
  /\ zoom (pivot_zoom cam pivot_px multiplier) = zoom cam * multiplier
  /\ screen_of (uniform_of (pivot_zoom cam pivot_px multiplier) canvas pad0 pad1)
       (vec2_of_point w) = vec2_of_point pivot_px
  /\ screen_of
       (uniform_of (zoomAtScreenPoint zoom_max cam pivot_px multiplier)
          canvas pad0 pad1)
       (vec2_of_point w) = vec2_of_point pivot_px.
Proof.
  intros Hz Hm Hs.
  assert (Hz' : zoom cam <> 0) by lra.
  assert (Hm' : multiplier <> 0) by lra.
  pose proof (screen_of_inj cam canvas pad0 pad1 w pivot_px Hz' Hs) as Hw.
  assert (Hnew : screen_of
            (uniform_of (pivot_zoom cam pivot_px multiplier) canvas pad0 pad1)
            (vec2_of_point w) = vec2_of_point pivot_px).
  { rewrite Hw. apply pivot_zoom_fixes_pivot; assumption. }
  split; [exact Hw|]. split; [rewrite <- Hw; exact Hs|].
  split; [reflexivity|]. split; [exact Hnew|].
  unfold zoomAtScreenPoint.
  destruct (Rle_dec multiplier 0); [exact Hs|].
  destruct (Rle_dec (zoom cam * multiplier) 0); [exact Hs|].
  destruct (Rlt_dec zoom_max (zoom cam * multiplier)); [exact Hs|exact Hnew].
Qed.

(** Zooming by 2 about the pixel (100, 100), from pan (50, 0) and zoom 1:
    the world point (150, 100) stays under the pixel. *)
Lemma pivot_invariance_witness :
  let cam := mkCameraView (mkPoint 50 0) 1 in
  let canvas := mkCanvas 800 600 in
  let pivot_px := mkPoint 100 100 in
  let w := mkPoint 150 100 in
  zoom (pivot_zoom cam pivot_px 2) = 1 * 2
  /\ screen_of (uniform_of (pivot_zoom cam pivot_px 2) canvas 0 (Vec2 0 0))
       (vec2_of_point w) = vec2_of_point pivot_px.
Proof.
  intros cam canvas pivot_px w.
  assert (Hs : screen_of (uniform_of cam canvas 0 (Vec2 0 0)) (vec2_of_point w)
               = vec2_of_point pivot_px).
  { rewrite screen_of_view. unfold vec2_of_point. simpl. f_equal; lra. }
  destruct (pivot_invariance cam canvas 0 (Vec2 0 0) pivot_px 2 1000 w)
    as (_ & _ & Hzoom & Hnew & _).
  - simpl. lra.
  - lra.
  - exact Hs.
  - split; [exact Hzoom | exact Hnew].
Defined.

End CameraProperties.

(* ===================================================================== *)
(** ** Properties of the component *)
(* ===================================================================== *)

Section WebProperties.
Import Web.
Context {F V : Type} {A : Arith F} {H : Host F V}.
Implicit Types s : State F.

(** *** The batch in the store *)

Lemma wf_batch_view s b a es :
  batch s = Some b -> heap s !! b = Some (BatchObj a) ->
  heap s !! a = Some (ArrayObj es) ->
  batch_array s = Some a /\ batch_events s = es.
Proof.
  intros Hb Hob Hoa. unfold batch_events, batch_array, events_of, elems_of.
  rewrite Hb, Hob, Hoa. split; reflexivity.
Qed.

Lemma batch_events_null s : batch s = None -> batch_events s = [].
Proof. intros Hb. unfold batch_events, batch_array. rewrite Hb. reflexivity. Qed.

(** Line 137 creates two distinct objects, neither of which existed. *)
Lemma alloc_batch_spec s :
  exists b a,
    alloc_batch s
    = (set_batch (Some b)
         (set_heap (<[b := BatchObj a]> (<[a := ArrayObj []]> (heap s))) s), [])
    /\ a <> b /\ heap s !! a = None.
Proof.
  unfold alloc_batch.
  set (a := fresh (dom (heap s))).
  set (b := fresh (dom (<[a := ArrayObj []]> (heap s)))).
  exists b, a. split; [reflexivity|]. split.
  - intros Heq. pose proof (is_fresh (dom (<[a := ArrayObj []]> (heap s)))) as Hf.
    fold b in Hf. apply Hf. rewrite <- Heq. rewrite dom_insert.
    apply elem_of_union_l, elem_of_singleton. reflexivity.
  - apply not_elem_of_dom. apply is_fresh.
Qed.

Lemma on_app_created_spec s :
  stage s = CreatingApp ->
  exists b a,
    a <> b /\
    step (V:=V) s app_created
    = (mkState (spaceDown s) (isPanning s) (lastPt s) (Some b) (ver s)
         (cameraText s) (S (raf_last s)) (running s) (aborted s) Ready
         (<[b := BatchObj a]> (<[a := ArrayObj []]> (heap s)))
         (raf_pending s ++ [S (raf_last s)]) (S (raf_last s)),
       [requestAnimationFrame (S (raf_last s))]).
Proof.
  intros Hst. destruct (alloc_batch_spec s) as (b & a & Hal & Hne & _).
  exists b, a. split; [exact Hne|].
  unfold step, on_app_created. rewrite Hst. unfold seq. rewrite Hal.
  reflexivity.
Qed.

(** *** One step *)

Lemma step_unbooted s (a : Action F V) :
  unbooted s -> inv (fst (step s a)) /\ step_shape s a.
Proof.
  intros (Hb & Hh & Hp & Hr & Hs). unfold step_shape.
  destruct a.
  9: { destruct (stage s) eqn:Hst.
       1,3: unfold step, on_app_created; rewrite Hst; simpl; split;
              [left; repeat split; auto; congruence
              |left; split; [reflexivity | rewrite app_nil_r; reflexivity]].
       destruct (on_app_created_spec s Hst) as (b & ar & Hne & ->). simpl.
       split.
       - right. split; [|split; [reflexivity|split; [discriminate|]]].
         + exists b, ar, []. simpl. rewrite lookup_insert_eq.
           rewrite lookup_insert_ne by congruence. rewrite lookup_insert_eq. auto.
         + right. rewrite Hp. reflexivity.
       - left. split; [reflexivity|]. unfold_store. rewrite Hb. simpl.
         rewrite lookup_insert_eq. rewrite lookup_insert_ne by congruence.
         rewrite lookup_insert_eq. reflexivity. }
  all: destruct s as [sd ip lp bt v ct rid run ab st h rp rl]; simpl in *; subst.
  all: assert (Hun : forall sd ip lp v ct run ab st rl, st <> Ready ->
     inv (mkState (F:=F) sd ip lp None v ct 0 run ab st ∅ [] rl))
    by (intros; left; repeat split; auto).
  all: unfold_cmds; simpl; repeat break_step.
  all: try (split; [apply Hun; congruence | left; split; reflexivity]).
Qed.

Lemma step_booted s (a : Action F V) :
  booted s -> booted (fst (step s a)) /\ step_shape s a.
Proof.
  intros ((b & ar & es & Hb & Hob & Hoa & Hne) & Hs & Hr & Hp). unfold step_shape.
  destruct s as [sd ip lp bt v ct rid run ab st h rp rl]; simpl in *; subst.
  assert (Hbo : forall sd ip lp v ct rid run ab rp rl es',
     rid <> 0 -> (rp = [] \/ rp = [rid]) ->
     booted (mkState (F:=F) sd ip lp (Some b) v ct rid run ab Ready
            (<[ar := ArrayObj es']> h) rp rl)).
  { intros. split; [|auto]. exists b, ar, es'. simpl.
    rewrite lookup_insert_ne by congruence. rewrite lookup_insert_eq. auto. }
  assert (Hbo' : forall sd ip lp v ct rid run ab rp rl,
     rid <> 0 -> (rp = [] \/ rp = [rid]) ->
     booted (mkState (F:=F) sd ip lp (Some b) v ct rid run ab Ready h rp rl)).
  { intros. split; [|auto]. exists b, ar, es. simpl. auto. }
  assert (Hl1 : forall es', (<[ar := ArrayObj es']> h) !! b = Some (BatchObj ar))
    by (intros; rewrite lookup_insert_ne by congruence; exact Hob).
  assert (Hl2 : forall es', (<[ar := ArrayObj es']> h) !! ar = Some (ArrayObj es'))
    by (intros; apply lookup_insert_eq).
  destruct a; unfold_cmds; unfold_store; simpl;
    repeat (first [ progress (rewrite ?Hob, ?Hoa, ?Hl1, ?Hl2; simpl)
                  | break_step ]).
  all: try (split; [first [apply Hbo | apply Hbo']; auto; fail
                   | left; split; [reflexivity | rewrite ?app_nil_r; reflexivity]]).
  - (* a frame is due, but the loop has been stopped *)
    split; [apply Hbo'; auto|left; split; [reflexivity|rewrite app_nil_r; reflexivity]].
    destruct Hp as [Hp|Hp]; [discriminate|]. injection Hp as _ ->. left. reflexivity.
  - (* the tick returns *)
    assert (l = []) as -> by (destruct Hp as [Hp|Hp]; [discriminate|]; injection Hp; auto).
    split; [apply Hbo; [lia|right; reflexivity]|].
    right. exists (Returned camera). eexists. destruct run; [|discriminate].
    repeat split; try reflexivity. discriminate.
  - (* the tick throws *)
    assert (l = []) as -> by (destruct Hp as [Hp|Hp]; [discriminate|]; injection Hp; auto).
    split; [apply Hbo'; [lia|right; reflexivity]|].
    right. exists (Threw err). eexists. destruct run; [|discriminate].
    repeat split; try reflexivity. discriminate.
  - (* cleanup *)
    split; [|left; split; [reflexivity|rewrite app_nil_r; reflexivity]].
    apply Hbo'; [assumption|]. left.
    destruct Hp as [-> | ->]; [reflexivity|].
    rewrite filter_cons_False by (intros Hn; apply Hn; reflexivity). reflexivity.
Qed.

Lemma step_spec s (a : Action F V) :
  inv s -> inv (fst (step s a)) /\ step_shape s a.
Proof.
  intros [Hu|Hb]; [apply step_unbooted; assumption|].
  destruct (step_booted s a Hb) as [Hb' Hsh]. split; [right; exact Hb'|exact Hsh].
Qed.

(** The calls a step makes on the array are what happens to the batch:
    after the step, [batch.events] holds what it held before with every
    [push] of the step appended and every truncation applied, in the
    order of the calls. *)
Lemma step_batch_after s (a : Action F V) :
  inv s ->
  batch_events (fst (step s a)) = batch_after (batch_events s) (snd (step s a)).
Proof.
  intros [(Hb & Hh & Hp & Hr & Hs)
         | ((b & ar & es & Hb & Hob & Hoa & Hne) & Hs & Hr & Hp)].
  - destruct a.
    9: { destruct (stage s) eqn:Hst.
         1,3: unfold step, on_app_created; rewrite Hst; reflexivity.
         destruct (on_app_created_spec s Hst) as (b & ar & Hne & ->). simpl.
         unfold_store. rewrite Hb. simpl.
         rewrite lookup_insert_eq. rewrite lookup_insert_ne by congruence.
         rewrite lookup_insert_eq. reflexivity. }
    all: destruct s as [sd ip lp bt v ct rid run ab st h rp rl]; simpl in *; subst.
    all: unfold_cmds; simpl; repeat break_step; reflexivity.
  - destruct s as [sd ip lp bt v ct rid run ab st h rp rl]; simpl in *; subst.
    assert (Hl1 : forall es', (<[ar := ArrayObj es']> h) !! b = Some (BatchObj ar))
      by (intros; rewrite lookup_insert_ne by congruence; exact Hob).
    assert (Hl2 : forall es', (<[ar := ArrayObj es']> h) !! ar = Some (ArrayObj es'))
      by (intros; apply lookup_insert_eq).
    destruct a; unfold_cmds; unfold_store; simpl;
      repeat (first [ progress (rewrite ?Hob, ?Hoa, ?Hl1, ?Hl2; simpl)
                    | break_step ]);
      reflexivity.
Qed.

Lemma batch_after_app (es : list (InputEvent F)) (t1 t2 : list (Effect F)) :
  batch_after es (t1 ++ t2) = batch_after (batch_after es t1) t2.
Proof.
  revert es. induction t1 as [|e t1 IH]; intros es; [reflexivity|].
  destruct e; simpl; apply IH.
Qed.

(** The batch, once in place, stays in place. *)
Lemma booted_batch s : booted s -> batch s <> None.
Proof. intros ((b & a & es & Hb & _) & _). congruence. Qed.

(** *** Traces of runs *)

Lemma pushes_of_app (t1 t2 : list (Effect F)) :
  pushes_of (t1 ++ t2) = pushes_of t1 ++ pushes_of t2.
Proof.
  induction t1 as [|e t1 IH]; [reflexivity|].
  destruct e; simpl; rewrite IH; reflexivity.
Qed.

Lemma ticks_of_app (t1 t2 : list (Effect F)) :
  ticks_of (t1 ++ t2) = ticks_of t1 ++ ticks_of t2.
Proof.
  induction t1 as [|e t1 IH]; [reflexivity|].
  destruct e; simpl; rewrite IH; reflexivity.
Qed.

Lemma camera_texts_of_app (t1 t2 : list (Effect F)) :
  camera_texts_of (t1 ++ t2) = camera_texts_of t1 ++ camera_texts_of t2.
Proof.
  induction t1 as [|e t1 IH]; [reflexivity|].
  destruct e; simpl; rewrite IH; reflexivity.
Qed.

Lemma pan_deltas_of_app (t1 t2 : list (Effect F)) :
  pan_deltas_of t1 ++ pan_deltas_of t2 = pan_deltas_of (t1 ++ t2).
Proof.
  induction t1 as [|e t1 IH]; [reflexivity|].
  destruct e as [| | |? []| | | | | | |]; simpl; rewrite <- IH; reflexivity.
Qed.

Lemma first_tick_from_app (t1 t2 : list (Effect F)) acc :
  first_tick_from acc (t1 ++ t2)
  = match first_tick_from acc t1 with
    | Some r => Some r
    | None => first_tick_from (acc ++ pushes_of t1) t2
    end.
Proof.
  revert acc. induction t1 as [|e t1 IH]; intros acc.
  - simpl. rewrite app_nil_r. reflexivity.
  - destruct e; simpl; rewrite ?IH; try reflexivity.
    destruct (first_tick_from (acc ++ [ev]) t1); [reflexivity|].
    rewrite <- app_assoc. reflexivity.
Qed.

Lemma first_tick_from_none (t : list (Effect F)) acc :
  ticks_of t = [] -> first_tick_from acc t = None.
Proof.
  revert acc. induction t as [|e t IH]; intros acc Ht; [reflexivity|].
  destruct e; simpl in *; try discriminate; apply IH; assumption.
Qed.

Lemma run_cons s (a : Action F V) acts :
  run s (a :: acts)
  = (fst (run (fst (step s a)) acts),
     snd (step s a) ++ snd (run (fst (step s a)) acts)).
Proof.
  simpl. destruct (step s a) as [s1 t1]. simpl.
  destruct (run s1 acts) as [s2 t2]. reflexivity.
Qed.

Lemma run_app s (acts1 acts2 : list (Action F V)) :
  run s (acts1 ++ acts2)
  = (fst (run (fst (run s acts1)) acts2),
     snd (run s acts1) ++ snd (run (fst (run s acts1)) acts2)).
Proof.
  revert s. induction acts1 as [|a acts1 IH]; intros s.
  - simpl. destruct (run s acts2); reflexivity.
  - rewrite <- app_comm_cons, !run_cons, IH. simpl.
    rewrite app_assoc. reflexivity.
Qed.

(** An invariant of the state and of the trace so far, kept by every
    permitted action, holds at the end of every permitted run. *)
Lemma run_invariant (P : State F -> list (Effect F) -> Prop)
    (ok : Action F V -> Prop) :
  (forall s t a, ok a -> P s t -> P (fst (step s a)) (t ++ snd (step s a))) ->
  forall acts s t, Forall ok acts -> P s t ->
    P (fst (run s acts)) (t ++ snd (run s acts)).
Proof.
  intros Hstep acts. induction acts as [|a acts IH]; intros s t Hok HP.
  - simpl. rewrite app_nil_r. exact HP.
  - rewrite run_cons. simpl. inversion Hok as [|? ? Ha Hrest]; subst.
    rewrite app_assoc. apply IH; [exact Hrest|]. apply Hstep; assumption.
Qed.

Lemma any_run (acts : list (Action F V)) : Forall (fun _ => True) acts.
Proof. apply Forall_forall. auto. Qed.

Lemma inv_init : inv (init (F:=F)).
Proof. left. repeat split; auto; discriminate. Qed.

Lemma inv_run s (acts : list (Action F V)) : inv s -> inv (fst (run s acts)).
Proof.
  intros Hs.
  refine (run_invariant (fun s' _ => inv s') (fun _ => True) _ acts s []
            (any_run acts) Hs).
  intros s0 _ a _ H0. apply step_spec. exact H0.
Qed.

(** Along a run the batch holds what the calls on its array make it
    hold. *)
Lemma run_batch_after s (acts : list (Action F V)) :
  inv s ->
  batch_events (fst (run s acts)) = batch_after (batch_events s) (snd (run s acts)).
Proof.
  revert s. induction acts as [|a acts IH]; intros s Hs; [reflexivity|].
  rewrite run_cons. simpl fst. simpl snd.
  rewrite batch_after_app, <- (step_batch_after s a Hs).
  apply IH, step_spec, Hs.
Qed.

(** While every tick returns, the events pushed so far are those handed
    to ticks so far, each once and in order, followed by those still in
    the batch. *)
Lemma run_consumption s (acts : list (Action F V)) :
  inv s -> Forall tick_returns acts ->
  batch_events s ++ pushes_of (snd (run s acts))
  = concat (ticks_of (snd (run s acts))) ++ batch_events (fst (run s acts)).
Proof.
  intros Hs Hok.
  pose proof (run_invariant
    (fun s' t => inv s' /\
       batch_events s ++ pushes_of t = concat (ticks_of t) ++ batch_events s')
    tick_returns) as Hrun.
  apply (Hrun) with (s := s) (t := []) in Hok.
  - simpl in Hok. apply Hok.
  - clear. intros s' t a Ha [Hinv Heq].
    destruct (step_spec s' a Hinv) as [Hinv' Hshape]. split; [exact Hinv'|].
    rewrite pushes_of_app, ticks_of_app, concat_app, app_assoc, Heq.
    destruct Hshape as
      [[Hticks Hev] | (o & rest & -> & _ & _ & Ht & Hticks & Hpush & Hev)].
    + rewrite Hticks, Hev. simpl. rewrite app_nil_r, app_assoc. reflexivity.
    + rewrite Ht, Hev. simpl. rewrite Hticks, Hpush. simpl.
      destruct o; [|contradiction]. rewrite !app_nil_r. reflexivity.
  - split; [exact Hs|]. simpl. rewrite app_nil_r. reflexivity.
Qed.

(** The first tick of a run that starts with an empty batch is given
    exactly the events pushed before it in that run. *)
Lemma run_first_tick s (acts : list (Action F V)) produced seen :
  inv s -> batch_events s = [] ->
  first_tick (snd (run s acts)) = Some (produced, seen) -> seen = produced.
Proof.
  intros Hs Hempty.
  pose proof (run_invariant
    (fun s' t => inv s' /\
       match first_tick t with
       | Some (p, sn) => sn = p
       | None => batch_events s' = pushes_of t
       end)
    (fun _ => True)) as Hrun.
  specialize (Hrun) with (acts := acts) (s := s) (t := []).
  simpl in Hrun. intros Hft. rewrite Hft in Hrun. apply Hrun.
  - clear. intros s' t a _ [Hinv Hcase].
    destruct (step_spec s' a Hinv) as [Hinv' Hshape]. split; [exact Hinv'|].
    unfold first_tick in *. rewrite first_tick_from_app.
    destruct (first_tick_from [] t) as [[p sn]|]; [exact Hcase|].
    simpl.
    destruct Hshape as
      [[Hticks Hev] | (o & rest & -> & _ & _ & Ht & Hticks & Hpush & Hev)].
    + rewrite (first_tick_from_none _ _ Hticks), pushes_of_app, Hev, Hcase.
      reflexivity.
    + rewrite Ht. simpl. exact Hcase.
  - apply any_run.
  - split; [exact Hs|]. exact Hempty.
Qed.

(** As long as there is no batch, nothing has been pushed and no tick has
    run. *)
Lemma run_unbooted s (acts : list (Action F V)) :
  inv s -> batch (fst (run s acts)) = None ->
  pushes_of (snd (run s acts)) = [] /\ ticks_of (snd (run s acts)) = [].
Proof.
  intros Hs.
  refine (proj2 (run_invariant
    (fun s' t => inv s' /\ (batch s' = None -> pushes_of t = [] /\ ticks_of t = []))
    (fun _ => True) _ acts s [] (any_run acts) _)).
  - clear. intros s t a _ [Hinv Hq].
    destruct (step_spec s a Hinv) as [Hinv' Hshape]. split; [exact Hinv'|].
    intros Hnone. destruct Hinv as [Hun | Hbo].
    + destruct Hun as (Hb & _ & Hp & _). destruct (Hq Hb) as [Hpu Hti].
      rewrite pushes_of_app, ticks_of_app, Hpu, Hti. simpl.
      destruct Hshape as [[Hticks Hev] | (o & rest & _ & _ & Hne & _)];
        [|congruence].
      split; [|exact Hticks].
      rewrite (batch_events_null _ Hnone), (batch_events_null _ Hb) in Hev.
      simpl in Hev. auto.
    + destruct (step_booted s a Hbo) as [Hbo' _].
      exfalso. apply (booted_batch _ Hbo'). exact Hnone.
  - split; [exact Hs|]. intros _. split; reflexivity.
Qed.

(** *** The frame handler *)

(** What a frame does when the tick throws. *)
Lemma frame_threw s (err : V) id rest :
  running s = true -> raf_pending s = id :: rest ->
  step s (animation_frame (Threw err))
  = (mkState (spaceDown s) (isPanning s) (lastPt s) (batch s) (ver s)
       (error_text err) (S (raf_last s)) true (aborted s) (stage s) (heap s)
       (rest ++ [S (raf_last s)]) (S (raf_last s)),
     [app_tick (batch s) (batch_events s); setCameraText (error_text err);
      requestAnimationFrame (S (raf_last s))]).
Proof.
  intros Hrun Hpend.
  destruct s as [sd ip lp bt v ct rid rn ab st h rp rl]; simpl in *; subst.
  reflexivity.
Qed.

(** What a frame does when the tick returns and the batch is in place. *)
Lemma frame_returned s (camera : CameraView F) id rest b a es :
  running s = true -> raf_pending s = id :: rest ->
  batch s = Some b -> heap s !! b = Some (BatchObj a) ->
  heap s !! a = Some (ArrayObj es) ->
  step (V:=V) s (animation_frame (Returned camera))
  = (mkState (spaceDown s) (isPanning s) (lastPt s) (Some b) (ver s)
       (camera_text camera) (S (raf_last s)) true (aborted s) (stage s)
       (<[a := ArrayObj []]> (heap s))
       (rest ++ [S (raf_last s)]) (S (raf_last s)),
     [app_tick (Some b) es; truncate a; setCameraText (camera_text camera);
      requestAnimationFrame (S (raf_last s))]).
Proof.
  intros Hrun Hpend Hb Hob Hoa.
  destruct s as [sd ip lp bt v ct rid rn ab st h rp rl]; simpl in *; subst.
  unfold_cmds; unfold_store; simpl. rewrite Hob, Hoa. reflexivity.
Qed.

(** A frame that is due while the loop runs calls [app.tick] once, with
    the events then in the batch. *)
Lemma frame_ticks s (o : TickOutcome F V) :
  running s = true -> raf_pending s <> [] ->
  ticks_of (snd (step s (animation_frame o))) = [batch_events s].
Proof.
  intros Hrun Hpend.
  destruct s as [sd ip lp bt v ct rid rn ab st h rp rl]; simpl in *; subst.
  destruct rp as [|id rest]; [congruence|].
  unfold_cmds. simpl. destruct o; simpl.
  - destruct bt; simpl; [|reflexivity].
    unfold events_clear. destruct (batch_array _); simpl; [|reflexivity].
    destruct (elems_of _ _); reflexivity.
  - reflexivity.
Qed.

(** *** Failing ticks *)

(** C3.  What the frame handler does when [app.tick] throws, for every
    state in which the loop runs and a frame is due: the tick was handed
    the events of the batch; afterwards the variable [batch] and the store
    are what they were, so the batch still holds those events (it is not
    cleared), and the next frame, whatever its tick does, hands the very
    same events to [app.tick] again. *)
Theorem failed_tick_keeps_batch s (err : V) :
  running s = true -> raf_pending s <> [] ->
  let s' := fst (step s (animation_frame (Threw err))) in
  let t := snd (step s (animation_frame (Threw err))) in
  ticks_of t = [batch_events s]
  /\ batch s' = batch s /\ heap s' = heap s
  /\ batch_events s' = batch_events s
  /\ forall o : TickOutcome F V,
       ticks_of (snd (step s' (animation_frame o))) = [batch_events s].
Proof.
  intros Hrun Hpend s' t.
  destruct (raf_pending s) as [|id rest] eqn:Hp; [congruence|].
  pose proof (frame_threw s err id rest Hrun Hp) as Hstep.
  assert (Hs' : s' = fst (step s (animation_frame (Threw err)))) by reflexivity.
  assert (Ht : t = snd (step s (animation_frame (Threw err)))) by reflexivity.
  rewrite Hstep in Hs', Ht. simpl in Hs', Ht. clearbody s' t. subst s' t.
  repeat split.
  intros o. rewrite frame_ticks; [reflexivity|reflexivity|].
  simpl. destruct rest; discriminate.
Qed.

(** C5.  When [app.tick] throws in a frame of the running loop, the
    handler catches the value: the camera line of the HUD is set, once, to
    "tick error: " followed by the string of the thrown value; a new
    animation frame is requested, its non-zero handle is stored in [rafId]
    and its callback is pending; the loop is still running, and the next
    frame calls [app.tick] again. *)
Theorem tick_error_reported s (err : V) :
  running s = true -> raf_pending s <> [] ->
  let s' := fst (step s (animation_frame (Threw err))) in
  let t := snd (step s (animation_frame (Threw err))) in
  cameraText s' = ("tick error: " ++ String_ err)%string
  /\ camera_texts_of t = [("tick error: " ++ String_ err)%string]
  /\ (exists id, In (requestAnimationFrame id) t /\ In id (raf_pending s') /\
                 rafId s' = id /\ id <> 0)
  /\ running s' = true
  /\ forall o : TickOutcome F V,
       ticks_of (snd (step s' (animation_frame o))) = [batch_events s'].
Proof.
  intros Hrun Hpend s' t.
  destruct (raf_pending s) as [|id rest] eqn:Hp; [congruence|].
  pose proof (frame_threw s err id rest Hrun Hp) as Hstep.
  assert (Hs' : s' = fst (step s (animation_frame (Threw err)))) by reflexivity.
  assert (Ht : t = snd (step s (animation_frame (Threw err)))) by reflexivity.
  rewrite Hstep in Hs', Ht. simpl in Hs', Ht. clearbody s' t. subst s' t.
  repeat split.
  - exists (S (raf_last s)). repeat split.
    + simpl. auto.
    + simpl. apply in_or_app. right. simpl. auto.
    + discriminate.
  - intros o. apply frame_ticks; [reflexivity|].
    simpl. destruct rest; discriminate.
Qed.

(** *** Successful ticks *)

(** C7.  At any point of a run from the mounted component, when a frame
    is due and its tick returns: the variable [batch] leads to a batch
    object and that to an array; the tick is handed the array's events;
    the handler then truncates that array; the variable [batch] is
    unchanged, the store differs only in that the same array now has no
    elements (no object is created, the batch object still refers to the
    same array); whatever follows, the next tick is handed exactly the
    events pushed after this one, so none of the events this tick was
    given is handed to a tick again; and if every tick so far returned,
    the events pushed so far are those handed to the ticks so far, each
    once and in order. *)
Theorem tick_clears_batch_in_place (acts : list (Action F V))
    (camera : CameraView F) :
  let s := fst (run init acts) in
  let t := snd (run init acts) in
  let s' := fst (step (V:=V) s (animation_frame (Returned camera))) in
  let t' := snd (step (V:=V) s (animation_frame (Returned camera))) in
  running s = true -> raf_pending s <> [] ->
  exists b a es,
    batch s = Some b /\ heap s !! b = Some (BatchObj a) /\
    heap s !! a = Some (ArrayObj es) /\
    ticks_of t' = [es] /\ In (truncate a) t' /\
    batch s' = Some b /\
    heap s' = <[a := ArrayObj []]> (heap s) /\
    heap s' !! b = Some (BatchObj a) /\
    heap s' !! a = Some (ArrayObj []) /\
    dom (heap s') = dom (heap s) /\
    (forall (after : list (Action F V)) produced seen,
       first_tick (snd (run s' after)) = Some (produced, seen) ->
       seen = produced) /\
    (Forall tick_returns acts -> concat (ticks_of (t ++ t')) = pushes_of t).
Proof.
  intros s t s' t' Hrun Hpend.
  assert (Hinv : inv s) by (apply inv_run, inv_init).
  assert (Hinv' : inv s') by (apply step_spec; exact Hinv).
  destruct Hinv as [(_ & _ & Hp & _) | ((b & a & es & Hb & Hob & Hoa & Hne) & _)];
    [congruence|].
  destruct (raf_pending s) as [|id rest] eqn:Hp; [congruence|].
  pose proof (frame_returned s camera id rest b a es Hrun Hp Hb Hob Hoa) as Hstep.
  destruct (wf_batch_view s b a es Hb Hob Hoa) as [_ Hev].
  assert (Hs' : s' = fst (step s (animation_frame (Returned camera)))) by reflexivity.
  assert (Ht' : t' = snd (step s (animation_frame (Returned camera)))) by reflexivity.
  rewrite Hstep in Hs', Ht'. simpl in Hs', Ht'. clearbody s' t'. subst s' t'.
  assert (Hob' : (<[a := ArrayObj []]> (heap s)) !! b = Some (BatchObj a))
    by (rewrite lookup_insert_ne by congruence; exact Hob).
  assert (Hoa' : (<[a := ArrayObj ([] : list (InputEvent F))]> (heap s)) !! a
                 = Some (ArrayObj []))
    by apply lookup_insert_eq.
  exists b, a, es. simpl.
  repeat split; try assumption.
  - auto.
  - apply dom_insert_lookup_L. rewrite Hoa. eauto.
  - intros after produced seen. apply run_first_tick; [exact Hinv'|].
    apply (wf_batch_view _ b a []); [reflexivity|exact Hob'|exact Hoa'].
  - intros Hret.
    pose proof (run_consumption init acts inv_init Hret) as Hcons.
    fold s t in Hcons. rewrite Hev in Hcons. simpl in Hcons.
    rewrite ticks_of_app, concat_app. simpl. rewrite app_nil_r.
    symmetry. exact Hcons.
Qed.

(** *** Before the bootstrap has finished *)

(** C10.  At any point of a run from the mounted component at which
    [batch] is still null: nothing has been pushed and no tick has run,
    the store holds no object (so no event is queued anywhere); a pointer
    move and a wheel event leave the state as it is and call nothing; and
    however the run goes on, its first tick is a tick of the part after
    that point and is handed exactly the events pushed after that
    point. *)
Theorem no_input_before_bootstrap (pre post : list (Action F V)) :
  let s0 := fst (run init pre) in
  let t0 := snd (run init pre) in
  batch s0 = None ->
  pushes_of t0 = [] /\ ticks_of t0 = [] /\ heap s0 = ∅
  /\ (forall e : PointerEvent F, step (V:=V) s0 (pointermove e) = (s0, []))
  /\ (forall (e : WheelEvent F) (rect : DOMRect F),
        step (V:=V) s0 (wheel e rect) = (s0, []))
  /\ first_tick (snd (run init (pre ++ post))) = first_tick (snd (run s0 post))
  /\ forall produced seen,
       first_tick (snd (run s0 post)) = Some (produced, seen) ->
       seen = produced.
Proof.
  intros s0 t0 Hnone.
  assert (Hinv : inv s0) by (apply inv_run, inv_init).
  assert (Hun : unbooted s0).
  { destruct Hinv as [Hu | ((b & a & es & Hb & _) & _)]; [exact Hu|congruence]. }
  pose proof (batch_events_null s0 Hnone) as Hev.
  destruct (run_unbooted init pre inv_init Hnone) as [Hpush Hticks].
  fold t0 in Hpush, Hticks.
  destruct Hun as (_ & Hh & _).
  split; [exact Hpush|]. split; [exact Hticks|]. split; [exact Hh|].
  split; [|split; [|split]].
  - intros e. unfold step, listener, on_pointermove, skip. rewrite Hnone.
    destruct (aborted s0), (isPanning s0), (lastPt s0); reflexivity.
  - intros e rect. unfold step, listener, on_wheel, skip. rewrite Hnone.
    destruct (aborted s0); reflexivity.
  - rewrite run_app. simpl. fold s0 t0. unfold first_tick.
    rewrite first_tick_from_app, (first_tick_from_none _ _ Hticks), Hpush.
    reflexivity.
  - intros produced seen. apply run_first_tick; assumption.
Qed.

(** *** After cleanup *)

(** Once the loop is stopped and the signal has fired, they stay so, and
    an action then calls neither [app.tick] nor [setCameraText], pushes
    nothing and leaves the camera text alone; a DOM event finds no
    listener; an animation-frame callback returns at once. *)
Lemma step_stopped s (a : Action F V) :
  running s = false -> aborted s = true ->
  let s' := fst (step s a) in
  let t := snd (step s a) in
  running s' = false /\ aborted s' = true /\
  cameraText s' = cameraText s /\
  ticks_of t = [] /\ camera_texts_of t = [] /\ pushes_of t = [] /\
  (is_dom_event a = true -> s' = s /\ t = []) /\
  (forall o, a = animation_frame o ->
     s' = set_raf_pending (tl (raf_pending s)) s /\ t = []).
Proof.
  intros Hrun Hab.
  destruct s as [sd ip lp bt v ct rid rn ab st h rp rl]; simpl in *; subst.
  destruct a; unfold_cmds; simpl; repeat break_step;
    repeat split; intros; try discriminate; try reflexivity.
Qed.

Lemma run_stopped s (acts : list (Action F V)) :
  running s = false -> aborted s = true ->
  let s' := fst (run s acts) in
  let t := snd (run s acts) in
  running s' = false /\ aborted s' = true /\
  cameraText s' = cameraText s /\
  ticks_of t = [] /\ camera_texts_of t = [] /\ pushes_of t = [].
Proof.
  intros Hrun Hab.
  refine (run_invariant
    (fun s' t => running s' = false /\ aborted s' = true /\
                 cameraText s' = cameraText s /\
                 ticks_of t = [] /\ camera_texts_of t = [] /\ pushes_of t = [])
    (fun _ => True) _ acts s [] (any_run acts) _).
  - clear. intros s1 t a _ (Hr & Ha & Hc & Ht & Hx & Hp).
    destruct (step_stopped s1 a Hr Ha) as (Hr' & Ha' & Hc' & Ht' & Hx' & Hp' & _).
    rewrite ticks_of_app, camera_texts_of_app, pushes_of_app.
    rewrite Ht, Hx, Hp, Ht', Hx', Hp', Hc', Hc. repeat split; assumption.
  - repeat split; assumption.
Qed.

(** After cleanup of a component whose bootstrap had finished, no
    animation-frame callback is pending, whatever happens next. *)
Lemma step_stopped_ready s (a : Action F V) :
  running s = false -> aborted s = true -> stage s = Ready ->
  raf_pending s = [] ->
  stage (fst (step s a)) = Ready /\ raf_pending (fst (step s a)) = [].
Proof.
  intros Hrun Hab Hst Hp.
  destruct s as [sd ip lp bt v ct rid rn ab st h rp rl]; simpl in *; subst.
  destruct a; unfold_cmds; simpl; repeat break_step; split; reflexivity.
Qed.

(** [onCleanup], written out. *)
Lemma cleanup_result s :
  step (V:=V) s cleanup
  = (mkState (spaceDown s) (isPanning s) (lastPt s) (batch s) (ver s)
       (cameraText s) (rafId s) false true (stage s) (heap s)
       (if Nat.eqb (rafId s) 0 then raf_pending s
        else filter (fun i => i <> rafId s) (raf_pending s))
       (raf_last s),
     if Nat.eqb (rafId s) 0 then [] else [cancelAnimationFrame (rafId s)]).
Proof.
  destruct s as [sd ip lp bt v ct rid rn ab st h rp rl].
  unfold_cmds. simpl. destruct (Nat.eqb rid 0); reflexivity.
Qed.

(** X17.  Cleanup at any point of a run from the mounted component, and
    anything after it, steps of a bootstrap still in flight included:
    cleanup leaves the loop stopped, the abort signal fired and no
    animation-frame callback pending (the one that was is cancelled);
    afterwards [app.tick] is never called, the camera line of the HUD is
    never written and keeps its text, and nothing is pushed; every DOM
    event (key, pointer, wheel) leaves the state as it is and calls
    nothing, all seven listeners being gone at once; an animation-frame
    callback that still fires does nothing but leave the browser's queue;
    and if the bootstrap had finished before cleanup, no callback is ever
    pending again. *)
Theorem cleanup_stops_everything (before after : list (Action F V)) :
  let s := fst (run init before) in
  let s1 := fst (step (V:=V) s cleanup) in
  let s2 := fst (run s1 after) in
  let t := snd (run s1 after) in
  (running s1 = false /\ aborted s1 = true /\ raf_pending s1 = [])
  /\ (ticks_of t = [] /\ camera_texts_of t = [] /\ pushes_of t = [] /\
      cameraText s2 = cameraText s)
  /\ (forall a : Action F V, is_dom_event a = true -> step s2 a = (s2, []))
  /\ (forall o : TickOutcome F V,
        step s2 (animation_frame o)
        = (set_raf_pending (tl (raf_pending s2)) s2, []))
  /\ (stage s = Ready -> raf_pending s2 = []).
Proof.
  intros s s1 s2 t.
  assert (Hinv : inv s) by (apply inv_run, inv_init).
  assert (Hs1 : s1 = fst (step (V:=V) s cleanup)) by reflexivity.
  rewrite cleanup_result in Hs1. simpl in Hs1.
  assert (Hp1 : raf_pending s1 = []).
  { rewrite Hs1. simpl.
    destruct Hinv as [(_ & _ & Hp & Hr & _) | (_ & _ & Hr & Hp)].
    - rewrite Hp. destruct (Nat.eqb (rafId s) 0); reflexivity.
    - destruct (Nat.eqb_spec (rafId s) 0) as [E|_]; [congruence|].
      destruct Hp as [-> | ->]; [reflexivity|].
      rewrite filter_cons_False by (intros Hn; apply Hn; reflexivity).
      reflexivity. }
  assert (Hr1 : running s1 = false) by (rewrite Hs1; reflexivity).
  assert (Ha1 : aborted s1 = true) by (rewrite Hs1; reflexivity).
  assert (Hc1 : cameraText s1 = cameraText s) by (rewrite Hs1; reflexivity).
  assert (Hst1 : stage s1 = stage s) by (rewrite Hs1; reflexivity).
  clearbody s1.
  destruct (run_stopped s1 after Hr1 Ha1) as (Hr2 & Ha2 & Hc2 & Ht & Hx & Hp).
  fold s2 t in Hr2, Ha2, Hc2, Ht, Hx, Hp.
  split; [auto|]. split; [rewrite <- Hc1; auto|].
  split; [|split].
  - intros a Hdom.
    destruct (step_stopped s2 a Hr2 Ha2) as (_ & _ & _ & _ & _ & _ & Hd & _).
    destruct (Hd Hdom) as [E1 E2].
    rewrite (surjective_pairing (step s2 a)), E1, E2. reflexivity.
  - intros o.
    destruct (step_stopped s2 (animation_frame o) Hr2 Ha2)
      as (_ & _ & _ & _ & _ & _ & _ & Hf).
    destruct (Hf o eq_refl) as [E1 E2].
    rewrite (surjective_pairing (step s2 (animation_frame o))), E1, E2.
    reflexivity.
  - intros Hready.
    refine (proj2 (proj2 (proj2 (run_invariant
      (fun s' _ => running s' = false /\ aborted s' = true /\
                   stage s' = Ready /\ raf_pending s' = [])
      (fun _ => True) _ after s1 [] (any_run after) _)))).
    + clear. intros s0 _ a _ (Hr & Ha & Hs & Hp).
      destruct (step_stopped_ready s0 a Hr Ha Hs Hp) as [Hs' Hp'].
      destruct (step_stopped s0 a Hr Ha) as (Hr' & Ha' & _).
      auto.
    + rewrite Hst1. auto.
Qed.

(** *** Dragging *)

(** One action of an uninterrupted drag: the drag goes on and a batch in
    place stays in place; either the sample is kept and no pan delta is
    pushed (and then, if the batch is in place, the action is not a
    pointer move), or the action is a pointer move, which pushes the
    difference to the last sample and takes a new sample. *)
Lemma drag_step s (p : Point F) (a : Action F V) :
  aborted s = false -> isPanning s = true -> lastPt s = Some p ->
  inv s -> during_drag a ->
  aborted (fst (step s a)) = false /\ isPanning (fst (step s a)) = true /\
  inv (fst (step s a)) /\
  (batch s <> None -> batch (fst (step s a)) <> None) /\
  ((lastPt (fst (step s a)) = Some p /\ pan_deltas_of (snd (step s a)) = [] /\
    (batch s <> None -> moves_of [a] = []))
   \/ (exists e, a = pointermove e /\
         lastPt (fst (step s a)) = Some (mkPoint (clientX e) (clientY e)) /\
         pan_deltas_of (snd (step s a))
         = [point_sub (mkPoint (clientX e) (clientY e)) p])).
Proof.
  intros Hab Hip Hlp Hinv Hdrag.
  assert (Hkeep : batch s <> None -> batch (fst (step s a)) <> None).
  { intros Hsome. destruct Hinv as [(Hb & _) | Hbo]; [congruence|].
    apply booted_batch, step_booted. exact Hbo. }
  split; [|split; [|split; [apply step_spec; exact Hinv|split; [exact Hkeep|]]]].
  all: clear Hkeep; destruct Hinv as [(Hb & Hh & Hp & Hr & Hs)
                        | ((b & ar & es & Hb & Hob & Hoa & Hne) & Hs & Hr & Hp)].
  all: destruct a; try contradiction.
  all: try match goal with
       | |- context [app_created] =>
           destruct (stage s) eqn:Hst;
             [ | destruct (on_app_created_spec s Hst) as (b' & a' & _ & ->) | ];
             try (unfold step, on_app_created; rewrite Hst); simpl;
             try assumption;
             try (left; split; [assumption|split; [reflexivity|]];
                  intros _; reflexivity)
       end.
  all: destruct s as [sd ip lp bt v ct rid run ab st h rp rl]; simpl in *; subst.
  all: try (assert (Hl1 : forall es', (<[ar := ArrayObj es']> h) !! b = Some (BatchObj ar))
              by (intros; rewrite lookup_insert_ne by congruence; exact Hob)).
  all: try (assert (Hl2 : forall es', (<[ar := ArrayObj es']> h) !! ar = Some (ArrayObj es'))
              by (intros; apply lookup_insert_eq)).
  all: unfold_cmds; unfold_store; simpl;
    repeat (first [ progress (rewrite ?Hob, ?Hoa, ?Hl1, ?Hl2; simpl)
                  | break_step ]);
    try congruence;
    try reflexivity;
    try (left; split; [reflexivity|split; [reflexivity|]];
         intros Hn; first [reflexivity | exfalso; apply Hn; reflexivity]);
    try (right; eexists; repeat split; reflexivity).
Qed.

End WebProperties.

(* ===================================================================== *)
(** ** Properties of the component on the reals *)
(* ===================================================================== *)

Section WebRealProperties.
Import Web.
Context {V : Type} {H : Host R V}.
Local Open Scope R_scope.

Lemma zoomMultiplier_R (dy : R) : zoomMultiplier dy = exp (- dy * 0.0015).
Proof.
  unfold zoomMultiplier. simpl. apply f_equal. unfold Q2R. simpl. lra.
Qed.

(** The events a wheel action pushes: none, or one zoom event whose
    multiplier is [zoomMultiplier] of the wheel's [deltaY]. *)
Lemma wheel_pushes (s : State R) (e : WheelEvent R) (rect : DOMRect R) :
  pushes_of (snd (step (V:=V) s (wheel e rect))) = []
  \/ pushes_of (snd (step (V:=V) s (wheel e rect)))
     = [camera_zoom_at_screen_point
          (mkPoint (wheelX e - left rect) (wheelY e - top rect))
          (zoomMultiplier (deltaY e))].
Proof.
  unfold step, listener, on_wheel, seq, call, skip, events_push.
  destruct (aborted s); [left; reflexivity|].
  destruct (batch s); [|left; reflexivity].
  destruct (batch_array s) as [a|]; [|left; reflexivity].
  destruct (elems_of (heap s) a); [right|left]; reflexivity.
Qed.

(** X18.  With numbers read as reals and [Math.exp] as the real
    exponential: every zoom event the wheel listener pushes, in any state
    and for any wheel event, carries the multiplier
    exp(-deltaY * 0.0015), which is strictly positive, and which is 1
    when deltaY is 0.  (On JavaScript numbers the multiplier of a large
    deltaY is 0; see [Binary64].) *)
Theorem wheel_zoom_multiplier_positive (s : State R) (e : WheelEvent R)
    (rect : DOMRect R) (pivot_px : Point R) (zoom_multiplier : R) :
  In (camera_zoom_at_screen_point pivot_px zoom_multiplier)
     (pushes_of (snd (step (V:=V) s (wheel e rect)))) ->
  zoom_multiplier = exp (- deltaY e * 0.0015)
  /\ 0 < zoom_multiplier
  /\ (deltaY e = 0 -> zoom_multiplier = 1).
Proof.
  intros Hin.
  assert (Hm : zoom_multiplier = zoomMultiplier (deltaY e)).
  { destruct (wheel_pushes s e rect) as [E|E]; rewrite E in Hin; simpl in Hin.
    - contradiction.
    - destruct Hin as [Heq|[]]. injection Heq as _ Hz. symmetry. exact Hz. }
  rewrite zoomMultiplier_R in Hm. subst zoom_multiplier.
  split; [reflexivity|]. split; [apply exp_pos|].
  intros ->. replace (- 0 * 0.0015) with 0 by lra. apply exp_0.
Qed.

(** The successive differences along a path add up to the difference of
    its ends. *)
Lemma point_sum_steps_from (from : Point R) (path : list (Point R)) :
  point_sum (steps_from from path) = point_sub (path_end from path) from.
Proof.
  revert from. induction path as [|p rest IH]; intros from.
  - unfold point_sum, point_sub. simpl. unfold Q2R. simpl. f_equal; lra.
  - simpl. fold (point_sum (steps_from p rest)). rewrite IH.
    unfold point_add, point_sub. simpl. f_equal; lra.
Qed.

Lemma moves_of_cons (a : Action R V) (acts : list (Action R V)) :
  moves_of (a :: acts) = moves_of [a] ++ moves_of acts.
Proof. destruct a; reflexivity. Qed.

(** A drag, followed from one action to the next: the deltas pushed are
    the successive differences of the samples taken, whose last one is
    the final value of [lastPt]; with the batch in place, every pointer
    move is sampled. *)
Lemma drag_run (s : State R) (p0 : Point R) (acts : list (Action R V)) :
  aborted s = false -> isPanning s = true -> lastPt s = Some p0 ->
  inv s -> Forall during_drag acts ->
  exists samples,
    pan_deltas_of (snd (run s acts)) = steps_from p0 samples
    /\ lastPt (fst (run s acts)) = Some (path_end p0 samples)
    /\ (batch s <> None -> samples = moves_of acts).
Proof.
  intros Hab Hip Hlp Hinv Hdrag. revert s p0 Hab Hip Hlp Hinv.
  induction Hdrag as [|a acts Ha Hrest IH]; intros s p0 Hab Hip Hlp Hinv.
  - exists []. simpl. auto.
  - rewrite run_cons. simpl fst. simpl snd. rewrite <- pan_deltas_of_app.
    destruct (drag_step s p0 a Hab Hip Hlp Hinv Ha)
      as (Hab' & Hip' & Hinv' & Hkeep & [(Hlp' & Hpd & Hmv) | (e & -> & Hlp' & Hpd)]).
    + destruct (IH _ _ Hab' Hip' Hlp' Hinv') as (samples & Hd & Hl & Hm).
      exists samples. rewrite Hpd, Hd, Hl. repeat split.
      intros Hsome. rewrite moves_of_cons, (Hmv Hsome). simpl.
      apply Hm, Hkeep, Hsome.
    + destruct (IH _ _ Hab' Hip' Hlp' Hinv') as (samples & Hd & Hl & Hm).
      exists (mkPoint (clientX e) (clientY e) :: samples).
      rewrite Hpd, Hd, Hl. repeat split.
      intros Hsome. simpl. f_equal. apply Hm, Hkeep, Hsome.
Qed.

(** C8.  During an uninterrupted drag (panning on, last sample [p0],
    listeners attached; pointer moves, wheel events, key presses such as
    the repeats of the held space bar, releases of other keys, frames and
    bootstrap steps in any order) from a state the component can be in:
    the calls made on the array are what happens to the batch, that is,
    [batch.events] ends up holding what it held with every event pushed
    appended in order and every truncation by a frame applied; on the
    reals the pan deltas pushed add up, in x and in y, to the final sample
    minus [p0]; and once the batch is in place the pan deltas pushed are,
    in order, each pointer position minus the one sampled before it,
    starting from [p0], the sample ends at the last pointer position, and
    so the deltas add up to the pointer's displacement since [p0]. *)
Theorem pan_deltas_telescope (s : State R) (p0 : Point R)
    (acts : list (Action R V)) :
  aborted s = false -> isPanning s = true -> lastPt s = Some p0 ->
  inv s -> Forall during_drag acts ->
  let s' := fst (run s acts) in
  let t := snd (run s acts) in
  let p_end := path_end p0 (moves_of acts) in
  batch_events s' = batch_after (batch_events s) t
  /\ (exists p_last, lastPt s' = Some p_last
     /\ x (point_sum (pan_deltas_of t)) = x p_last - x p0
     /\ y (point_sum (pan_deltas_of t)) = y p_last - y p0)
  /\ (batch s <> None ->
      pan_deltas_of t = steps_from p0 (moves_of acts)
      /\ lastPt s' = Some p_end
      /\ x (point_sum (pan_deltas_of t)) = x p_end - x p0
      /\ y (point_sum (pan_deltas_of t)) = y p_end - y p0).
Proof.
  intros Hab Hip Hlp Hinv Hdrag s' t p_end.
  destruct (drag_run s p0 acts Hab Hip Hlp Hinv Hdrag) as (samples & Hd & Hl & Hm).
  fold s' in Hl. fold t in Hd.
  assert (Hsum : point_sum (pan_deltas_of t)
                 = point_sub (path_end p0 samples) p0)
    by (rewrite Hd; apply point_sum_steps_from).
  split; [apply run_batch_after; exact Hinv|]. split.
  - exists (path_end p0 samples). rewrite Hsum. simpl. auto.
  - intros Hsome. specialize (Hm Hsome). subst samples.
    fold p_end in Hl, Hsum. rewrite Hsum. simpl. auto.
Qed.

End WebRealProperties.

(* ===================================================================== *)
(** ** The properties on example runs *)
(* ===================================================================== *)

Section WebExamples.
Import Web.
Local Open Scope R_scope.
Local Open Scope string_scope.
#[local] Existing Instance Host_example.

(** After the example drag the batch holds the pan delta (15 - 10,
    10 - 10).  A tick that throws "lost surface" leaves it there, and the
    next tick is handed it again. *)
Lemma failed_tick_keeps_batch_witness :
  let s := fst (run init example_drag) in
  let s' := fst (step s (animation_frame (Threw "lost surface"))) in
  let delta := camera_pan_by_screen_delta (mkPoint (15 - 10) (10 - 10)) in
  running s = true /\ raf_pending s <> []
  /\ batch_events s = [delta]
  /\ batch_events s' = [delta]
  /\ ticks_of (snd (step s' (animation_frame (Returned example_camera))))
     = [[delta]].
Proof.
  intros s s' delta.
  assert (Hrun : running s = true) by reflexivity.
  assert (Hpend : raf_pending s <> []) by (vm_compute; discriminate).
  destruct (failed_tick_keeps_batch s "lost surface" Hrun Hpend)
    as (_ & _ & _ & Hev & Hnext).
  split; [exact Hrun|]. split; [exact Hpend|]. split; [reflexivity|].
  split; [exact Hev|]. exact (Hnext (Returned example_camera)).
Defined.

(** The same failing tick: the HUD shows the error and the loop goes on. *)
Lemma tick_error_reported_witness :
  let s := fst (run init example_drag) in
  let s' := fst (step s (animation_frame (Threw "lost surface"))) in
  running s = true /\ raf_pending s <> []
  /\ cameraText s' = "tick error: lost surface"
  /\ running s' = true.
Proof.
  intros s s'.
  assert (Hrun : running s = true) by reflexivity.
  assert (Hpend : raf_pending s <> []) by (vm_compute; discriminate).
  destruct (tick_error_reported s "lost surface" Hrun Hpend)
    as (Htext & _ & _ & Hrun' & _).
  split; [exact Hrun|]. split; [exact Hpend|].
  split; [exact Htext|exact Hrun'].
Defined.

(** After the example drag a tick that returns empties the array in
    place, and the events pushed so far have each been handed to a tick
    once. *)
Lemma tick_clears_batch_in_place_witness :
  let s := fst (run init example_drag) in
  let t := snd (run init example_drag) in
  let s' := fst (step s (animation_frame (Returned example_camera))) in
  let t' := snd (step s (animation_frame (Returned example_camera))) in
  Forall tick_returns example_drag /\ running s = true /\ raf_pending s <> []
  /\ concat (ticks_of (t ++ t')) = pushes_of t
  /\ exists b a es,
       batch s = Some b /\ heap s !! b = Some (BatchObj a) /\
       heap s !! a = Some (ArrayObj es) /\
       batch s' = Some b /\ heap s' !! b = Some (BatchObj a) /\
       heap s' !! a = Some (ArrayObj []).
Proof.
  intros s t s' t'.
  assert (Hret : Forall tick_returns example_drag) by (repeat constructor).
  assert (Hrun : running s = true) by reflexivity.
  assert (Hpend : raf_pending s <> []) by (vm_compute; discriminate).
  destruct (tick_clears_batch_in_place example_drag example_camera Hrun Hpend)
    as (b & a & es & Hb & Hob & Hoa & _ & _ & Hb' & _ & Hob' & Hoa' & _ & _ & Hall).
  split; [exact Hret|]. split; [exact Hrun|]. split; [exact Hpend|].
  split; [exact (Hall Hret)|].
  exists b, a, es. repeat split; assumption.
Defined.

(** The gesture made while the module loads pushes nothing; the first
    tick, after the application exists, is handed the one delta pushed
    by the later move: (20 - 10, 10 - 10), measured from the sample taken
    at the press. *)
Lemma no_input_before_bootstrap_witness :
  let s0 := fst (run init example_early) in
  let delta := camera_pan_by_screen_delta (mkPoint (20 - 10) (10 - 10)) in
  batch s0 = None
  /\ pushes_of (snd (run init example_early)) = []
  /\ heap s0 = ∅
  /\ first_tick (snd (run init (example_early ++ example_late)))
     = Some ([delta], [delta]).
Proof.
  intros s0 delta.
  assert (Hnone : batch s0 = None) by reflexivity.
  destruct (no_input_before_bootstrap example_early example_late Hnone)
    as (Hpush & _ & Hheap & _ & _ & Hsame & Hfirst).
  assert (Hft : first_tick (snd (run s0 example_late)) = Some ([delta], [delta]))
    by reflexivity.
  pose proof (Hfirst [delta] [delta] Hft) as _.
  split; [exact Hnone|]. split; [exact Hpush|]. split; [exact Hheap|].
  rewrite Hsame. exact Hft.
Defined.

(** Cleanup after the example drag: a later pointer move reaches no
    listener, and no frame callback is pending. *)
Lemma cleanup_stops_everything_witness :
  let s := fst (run init example_drag) in
  let s2 := fst (run (fst (step s cleanup)) example_moves) in
  let move := pointermove (mkPointerEvent 0%Z 30 30 1%Z) in
  is_dom_event move = true /\ stage s = Ready
  /\ step s2 move = (s2, [])
  /\ raf_pending s2 = [].
Proof.
  intros s s2 move.
  destruct (cleanup_stops_everything example_drag example_moves)
    as (_ & _ & Hdom & _ & Hready).
  split; [reflexivity|]. split; [reflexivity|].
  split; [exact (Hdom move eq_refl)|exact (Hready eq_refl)].
Defined.

(** C9.  Cleanup while the module is still loading does not stop the
    bootstrap.  Cleanup itself leaves [running] false, the abort signal
    fired and nothing pending, and cancels nothing since [rafId] is still
    0; the bootstrap, resumed after cleanup, then shows the version,
    constructs the application, creates the batch and requests a frame,
    whose callback is pending after teardown. *)
Theorem cleanup_during_bootstrap_resumes :
  let s1 := fst (step (V:=string) init cleanup) in
  let s2 := fst (run s1 example_boot) in
  running s1 = false /\ aborted s1 = true /\ raf_pending s1 = []
  /\ snd (step (V:=string) init cleanup) = []
  /\ ver s1 = "(loading)" /\ batch s1 = None
  /\ snd (run s1 example_boot)
     = [setVer "0.1.0"; App_new; requestAnimationFrame 1]
  /\ ver s2 = "0.1.0" /\ batch s2 = Some 1%nat /\ raf_pending s2 = [1%nat].
Proof. repeat split. Qed.

(** A wheel event with deltaY = 0 after the bootstrap pushes a zoom event
    with multiplier 1. *)
Lemma wheel_zoom_multiplier_positive_witness :
  let s := fst (run init example_boot) in
  let e := mkWheelEvent 400 300 0 in
  let rect := mkDOMRect 0 0 in
  let pivot := mkPoint (400 - 0) (300 - 0) in
  In (camera_zoom_at_screen_point pivot (zoomMultiplier 0))
     (pushes_of (snd (step s (wheel e rect))))
  /\ 0 < zoomMultiplier 0
  /\ zoomMultiplier 0 = 1.
Proof.
  intros s e rect pivot.
  assert (Hin : In (camera_zoom_at_screen_point pivot (zoomMultiplier 0))
                  (pushes_of (snd (step s (wheel e rect)))))
    by (left; reflexivity).
  destruct (wheel_zoom_multiplier_positive s e rect pivot (zoomMultiplier 0) Hin)
    as (_ & Hpos & Hone).
  split; [exact Hin|]. split; [exact Hpos|exact (Hone eq_refl)].
Defined.

(** The example drag continued with the space bar held: from the press
    at (10, 10) the pointer goes to (15, 10) and then to (18, 14), with a
    repeat of the space bar's [keydown], a wheel event and the release of
    another key in between.  The batch ends up holding the two pan deltas
    around the zoom event, and the deltas add up to (18 - 10, 14 - 10). *)
Lemma pan_deltas_telescope_witness :
  let s := fst (run init (example_boot ++ example_press)) in
  let s' := fst (run s example_held) in
  let t := snd (run s example_held) in
  aborted s = false /\ isPanning s = true
  /\ lastPt s = Some (mkPoint 10 10)
  /\ inv s /\ Forall during_drag example_held /\ batch s <> None
  /\ batch_events s = []
  /\ batch_events s' = batch_after (batch_events s) t
  /\ batch_after (batch_events s) t
     = [camera_pan_by_screen_delta (mkPoint (15 - 10) (10 - 10));
        camera_zoom_at_screen_point (mkPoint (400 - 0) (300 - 0))
          (zoomMultiplier 120);
        camera_pan_by_screen_delta (mkPoint (18 - 15) (14 - 10))]
  /\ pan_deltas_of t = [mkPoint (15 - 10) (10 - 10); mkPoint (18 - 15) (14 - 10)]
  /\ lastPt s' = Some (mkPoint 18 14)
  /\ x (point_sum (pan_deltas_of t)) = 18 - 10
  /\ y (point_sum (pan_deltas_of t)) = 14 - 10.
Proof.
  intros s s' t.
  assert (Hinv : inv s) by (apply inv_run, inv_init).
  assert (Hdrag : Forall during_drag example_held)
    by (repeat constructor).
  assert (Hsome : batch s <> None) by (vm_compute; discriminate).
  destruct (pan_deltas_telescope s (mkPoint 10 10) example_held
              eq_refl eq_refl eq_refl Hinv Hdrag) as (Hbatch & _ & Hin).
  destruct (Hin Hsome) as (Hdeltas & Hlast & Hx & Hy).
  split; [reflexivity|]. split; [reflexivity|]. split; [reflexivity|].
  split; [exact Hinv|]. split; [exact Hdrag|]. split; [exact Hsome|].
  split; [reflexivity|]. split; [exact Hbatch|]. split; [reflexivity|].
  split; [exact Hdeltas|]. split; [exact Hlast|].
  split; [exact Hx|exact Hy].
Defined.

End WebExamples.

(* ===================================================================== *)
(** ** The wheel listener on JavaScript numbers *)
(* ===================================================================== *)

Section Binary64Properties.
Import Web Binary64.
Local Open Scope R_scope.
#[local] Existing Instance Host_binary64.

Lemma exp_1_gt_2 : 2 < exp 1.
Proof. pose proof (exp_ineq1 1). lra. Qed.

Lemma exp_INR (n : nat) : exp (INR n) = exp 1 ^ n.
Proof.
  induction n as [|n IH]; [simpl; apply exp_0|].
  rewrite S_INR, exp_plus, IH. simpl. ring.
Qed.

Lemma ln_2_le_1 : 0 < ln 2 <= 1.
Proof.
  split.
  - pose proof ln_lt_2. lra.
  - rewrite <- (ln_exp 1). left. apply ln_increasing; [lra|apply exp_1_gt_2].
Qed.

(** Below -1076 the exponential is less than a quarter of 2^-1074, the
    least positive number. *)
Lemma exp_tiny (t : R) : t <= -1076 -> 0 < exp t * pow2 1074 < 1 / 2.
Proof.
  intros Ht. split.
  - apply Rmult_lt_0_compat; [apply exp_pos|]. simpl. apply IZR_lt. reflexivity.
  - assert (H1 : exp t <= exp (- INR 1076)).
    { destruct (Req_dec_T t (- INR 1076)) as [->|Hne]; [lra|].
      left. apply exp_increasing.
      assert (INR 1076 = 1076) by (rewrite INR_IZR_INZ; reflexivity). lra. }
    rewrite exp_Ropp, exp_INR in H1.
    assert (H2 : 2 ^ 1076 <= exp 1 ^ 1076)
      by (apply pow_incr; pose proof exp_1_gt_2; lra).
    assert (H3 : 0 < 2 ^ 1076) by (apply pow_lt; lra).
    assert (H4 : / exp 1 ^ 1076 <= / 2 ^ 1076)
      by (apply Rinv_le_contravar; assumption).
    assert (H5 : pow2 1074 = 2 ^ 1074).
    { unfold pow2. rewrite pow_IZR. reflexivity. }
    rewrite H5.
    assert (H6 : 2 ^ 1076 = 4 * 2 ^ 1074).
    { change 1076%nat with (2 + 1074)%nat. rewrite pow_add. simpl. ring. }
    assert (H7 : 0 < 2 ^ 1074) by (apply pow_lt; lra).
    assert (H8 : exp t * 2 ^ 1074 <= / 2 ^ 1076 * 2 ^ 1074).
    { apply Rmult_le_compat_r; lra. }
    rewrite H6 in H8.
    assert (H9 : / (4 * 2 ^ 1074) * 2 ^ 1074 = / 4) by (field; lra).
    lra.
Qed.

(** Underflow: the exponential of a real number below -1076 rounds to
    +0. *)
Lemma round_exp_underflow (t : R) :
  t <= -1076 -> round (exp t) = SpecFloat.S754_zero false.
Proof.
  intros Ht. unfold round.
  pose proof (exp_pos t) as Hpos.
  destruct (Req_dec_T (exp t) 0) as [H0|_]; [lra|].
  destruct (Rlt_dec (exp t) 0) as [H0|_]; [lra|].
  rewrite (Rabs_pos_eq (exp t)) by lra.
  rewrite ln_exp.
  assert (Hq : Z.max (floor (t / ln 2) - 52) (-1074) = (-1074)%Z).
  { apply Z.max_r. unfold floor.
    assert (Hup : (up (t / ln 2) <= -1075)%Z).
    { destruct (archimed (t / ln 2)) as [_ Hu].
      assert (Hd : t / ln 2 <= t).
      { destruct ln_2_le_1 as [Hl0 Hl1]. unfold Rdiv.
        assert (1 <= / ln 2).
        { rewrite <- Rinv_1. apply Rinv_le_contravar; lra. }
        nra. }
      apply le_IZR. lra. }
    lia. }
  rewrite Hq.
  change (- -1074)%Z with 1074%Z.
  destruct (exp_tiny t Ht) as [Hz0 Hz1].
  set (z := exp t * pow2 1074) in *.
  assert (Hf : floor z = 0%Z).
  { unfold floor. rewrite <- (up_tech z 0); [reflexivity|lra|].
    change (IZR (0 + 1)) with 1. lra. }
  unfold nearest_even. rewrite Hf.
  destruct (Rlt_dec (z - 0) (1 / 2)) as [_|Hn]; [reflexivity|].
  exfalso. apply Hn. lra.
Qed.

Lemma floor_IZR (z : Z) : floor (IZR z) = z.
Proof.
  unfold floor. rewrite <- (up_tech (IZR z) z); [lia|lra|].
  rewrite plus_IZR. lra.
Qed.

Lemma nearest_even_IZR (z : Z) : nearest_even (IZR z) = z.
Proof.
  unfold nearest_even. rewrite floor_IZR.
  destruct (Rlt_dec (IZR z - IZR z) (1 / 2)) as [_|Hn]; [reflexivity|].
  exfalso. apply Hn. lra.
Qed.

(** The rounding leaves a number as it is: 1 rounds to 1. *)
Lemma round_1 : round 1 = of_Z 1.
Proof.
  unfold round.
  destruct (Req_dec_T 1 0) as [H0|_]; [lra|].
  destruct (Rlt_dec 1 0) as [H0|_]; [lra|].
  rewrite Rabs_R1, ln_1. unfold Rdiv. rewrite Rmult_0_l.
  rewrite (floor_IZR 0).
  change (Z.max (0 - 52) (-1074)) with (-52)%Z. change (- -52)%Z with 52%Z.
  rewrite Rmult_1_l. unfold pow2. rewrite nearest_even_IZR.
  vm_compute. reflexivity.
Qed.

(** Line 120 at deltaY = 1000000: the product [-1000000 * 0.0015] is the
    number -1500, and [Math.exp] of it is +0. *)
Lemma zoomMultiplier_underflow :
  zoomMultiplier (of_Z 1000000) = SpecFloat.S754_zero false.
Proof.
  unfold zoomMultiplier.
  assert (Harg : ((- of_Z 1000000) * flit 0.0015)%num
                 = SpecFloat.S754_finite true 6597069766656000 (-42))
    by (vm_compute; reflexivity).
  rewrite Harg. simpl. apply round_exp_underflow.
  unfold to_R, pow2.
  replace (Z.pow_pos 2 42) with 4398046511104%Z by (vm_compute; reflexivity).
  lra.
Qed.

(** C6.  On JavaScript numbers the wheel listener pushes a zoom event
    whose multiplier is not strictly positive: after the bootstrap, a
    wheel event with the finite deltaY = 1000000 pushes one zoom event,
    with the multiplier [Math.exp(-1000000 * 0.0015)], which is +0, and
    [+0 > 0] is false.  At deltaY = 0 the multiplier is exactly 1. *)
Theorem wheel_zoom_multiplier_underflow :
  let s := fst (run init example_boot64) in
  let dy := deltaY example_wheel in
  let pivot := mkPoint (of_Z 400 - of_Z 0)%num (of_Z 300 - of_Z 0)%num in
  is_finite dy = true
  /\ pushes_of (snd (step s (wheel example_wheel example_rect)))
     = [camera_zoom_at_screen_point pivot (zoomMultiplier dy)]
  /\ zoomMultiplier dy = SpecFloat.S754_zero false
  /\ gt_zero (zoomMultiplier dy) = false
  /\ zoomMultiplier (of_Z 0) = of_Z 1.
Proof.
  intros s dy pivot.
  assert (Hz : zoomMultiplier dy = SpecFloat.S754_zero false)
    by exact zoomMultiplier_underflow.
  split; [reflexivity|]. split; [reflexivity|]. split; [exact Hz|].
  split; [rewrite Hz; reflexivity|].
  vm_compute. reflexivity.
Qed.

End Binary64Properties.

(* ===================================================================== *)
(** ** Further properties of the vertex shader *)
(* ===================================================================== *)

Section ShaderGeometry.
Import Shader.
Local Open Scope R_scope.

(** The clip position [vs_main] returns, on the reals, coordinate by
    coordinate. *)
Lemma vs_main_R (u : CameraUniform R) (in_pos inst_pos inst_size : vec2 R)
    (inst_color : vec4 R) :
  pos (vs_main u in_pos inst_pos inst_size inst_color)
  = Vec4 ((vx inst_pos + vx in_pos * vx inst_size - vx (u_pan u)) * u_zoom u
            / vx (u_canvas u) * 2 - 1)
         (1 - (vy inst_pos + vy in_pos * vy inst_size - vy (u_pan u)) * u_zoom u
                / vy (u_canvas u) * 2)
         0 1.
Proof.
  unfold vs_main, ndc_of, screen_of, world_of, vec4_of, vscale, vsub, vadd, vmul.
  rewrite flit_R_0, flit_R_1, flit_R_2. reflexivity.
Qed.

Lemma div_le_1 (a w : R) : 0 < w -> (a / w <= 1 <-> a <= w).
Proof.
  intros Hw. split; intros Ha.
  - apply (Rmult_le_compat_r w) in Ha; [|lra].
    unfold Rdiv in Ha. rewrite Rmult_assoc, Rinv_l in Ha; lra.
  - apply (Rmult_le_reg_r w); [exact Hw|].
    unfold Rdiv. rewrite Rmult_assoc, Rinv_l; lra.
Qed.

Lemma div_ge_0 (a w : R) : 0 < w -> (0 <= a / w <-> 0 <= a).
Proof.
  intros Hw. split; intros Ha.
  - apply (Rmult_le_compat_r w) in Ha; [|lra].
    unfold Rdiv in Ha. rewrite Rmult_assoc, Rinv_l in Ha; lra.
  - apply (Rmult_le_reg_r w); [exact Hw|].
    unfold Rdiv. rewrite Rmult_assoc, Rinv_l; lra.
Qed.

(** X1.  On a canvas of positive width and height, a vertex lies in the
    clip square exactly when its screen position lies on the canvas:
    screen.x is in [0, width] iff ndc.x is in [-1, 1], and screen.y is in
    [0, height] iff ndc.y is in [-1, 1]; the left edge goes to ndc.x = -1,
    the right edge to 1, the top edge to ndc.y = 1 and the bottom edge
    to -1. *)
Theorem vs_main_canvas_clip_square (u : CameraUniform R)
    (in_pos inst_pos inst_size : vec2 R) (inst_color : vec4 R) :
  0 < vx (u_canvas u) -> 0 < vy (u_canvas u) ->
  let screen := screen_of u (world_of in_pos inst_pos inst_size) in
  let out := pos (vs_main u in_pos inst_pos inst_size inst_color) in
  (0 <= vx screen <= vx (u_canvas u) <-> -1 <= cx out <= 1)
  /\ (0 <= vy screen <= vy (u_canvas u) <-> -1 <= cy out <= 1)
  /\ (vx screen = 0 -> cx out = -1)
  /\ (vx screen = vx (u_canvas u) -> cx out = 1)
  /\ (vy screen = 0 -> cy out = 1)
  /\ (vy screen = vy (u_canvas u) -> cy out = -1).
Proof.
  intros Hw Hh screen out.
  assert (Hx : cx out = vx screen / vx (u_canvas u) * 2 - 1).
  { unfold out. rewrite vs_main_R. reflexivity. }
  assert (Hy : cy out = 1 - vy screen / vy (u_canvas u) * 2).
  { unfold out. rewrite vs_main_R. reflexivity. }
  rewrite Hx, Hy. clearbody screen. clear Hx Hy out.
  assert (Hin : forall a w, 0 < w -> (0 <= a <= w <-> 0 <= a / w <= 1)).
  { intros a w Hpos. pose proof (div_le_1 a w Hpos). pose proof (div_ge_0 a w Hpos).
    tauto. }
  pose proof (Hin (vx screen) _ Hw) as X. pose proof (Hin (vy screen) _ Hh) as Y.
  split; [rewrite X; split; lra|]. split; [rewrite Y; split; lra|].
  split; [|split; [|split]].
  - intros ->. unfold Rdiv. rewrite Rmult_0_l. lra.
  - intros ->. unfold Rdiv. rewrite Rinv_r; lra.
  - intros ->. unfold Rdiv. rewrite Rmult_0_l. lra.
  - intros ->. unfold Rdiv. rewrite Rinv_r; lra.
Qed.

(** X2.  With a zoom and a canvas that are not zero the transform loses
    nothing: two vertices with the same clip position have the same
    world position (instance position plus corner times size). *)
Theorem vs_main_injective (u : CameraUniform R)
    (in_pos inst_pos inst_size in_pos' inst_pos' inst_size' : vec2 R)
    (inst_color inst_color' : vec4 R) :
  u_zoom u <> 0 -> vx (u_canvas u) <> 0 -> vy (u_canvas u) <> 0 ->
  pos (vs_main u in_pos inst_pos inst_size inst_color)
  = pos (vs_main u in_pos' inst_pos' inst_size' inst_color') ->
  world_of in_pos inst_pos inst_size = world_of in_pos' inst_pos' inst_size'.
Proof.
  intros Hz Hw Hh Heq. rewrite !vs_main_R in Heq.
  injection Heq as Hx Hy.
  unfold world_of, vadd, vmul. simpl.
  set (W := vx (u_canvas u)) in *. set (Hh' := vy (u_canvas u)) in *.
  set (z := u_zoom u) in *.
  f_equal.
  - assert (E : forall a, a = ((a - vx (u_pan u)) * z / W * 2 - 1 + 1) / 2 * W / z
                              + vx (u_pan u))
      by (intros; field; auto).
    rewrite (E (vx inst_pos + vx in_pos * vx inst_size)), Hx, <- E. reflexivity.
  - assert (E : forall a, a = (1 - (1 - (a - vy (u_pan u)) * z / Hh' * 2)) / 2 * Hh' / z
                              + vy (u_pan u))
      by (intros; field; auto).
    rewrite (E (vy inst_pos + vy in_pos * vy inst_size)), Hy, <- E. reflexivity.
Qed.

(** X3.  The quad of an instance is an axis-aligned rectangle whose clip
    extent depends on the size, the zoom and the canvas only: between two
    corners, ndc.x differs by 2 * (difference of corner.x) * size.x * zoom
    / width and ndc.y by minus 2 * (difference of corner.y) * size.y *
    zoom / height, whatever the instance position and the camera pan. *)
Theorem vs_main_quad_extent (u : CameraUniform R)
    (inst_pos inst_size : vec2 R) (inst_color : vec4 R) (c c' : vec2 R) :
  let out := fun corner => pos (vs_main u corner inst_pos inst_size inst_color) in
  cx (out c') - cx (out c)
  = 2 * ((vx c' - vx c) * vx inst_size * u_zoom u) / vx (u_canvas u)
  /\ cy (out c') - cy (out c)
     = - (2 * ((vy c' - vy c) * vy inst_size * u_zoom u) / vy (u_canvas u)).
Proof.
  intros out. unfold out. rewrite !vs_main_R. simpl. unfold Rdiv. split; ring.
Qed.

(** X4.  Moving the camera pan and an instance by the same vector leaves
    every vertex of the instance where it is in clip space. *)
Theorem vs_main_translation (u : CameraUniform R) (d : vec2 R)
    (in_pos inst_pos inst_size : vec2 R) (inst_color : vec4 R) :
  pos (vs_main (mkCameraUniform (vadd (u_pan u) d) (u_zoom u) (_pad0 u)
                  (u_canvas u) (_pad1 u))
         in_pos (vadd inst_pos d) inst_size inst_color)
  = pos (vs_main u in_pos inst_pos inst_size inst_color).
Proof.
  rewrite !vs_main_R. simpl. unfold Rdiv. f_equal; ring.
Qed.

End ShaderGeometry.

(* ===================================================================== *)
(** ** Further properties of the component *)
(* ===================================================================== *)

Section WebExtras.
Import Web.
Context {F V : Type} {A : Arith F} {H : Host F V}.
Implicit Types s : State F.

Lemma pan_flags_step s (a : Action F V) :
  isPanning s = has_sample s -> implb (isPanning s) (spaceDown s) = true ->
  isPanning (fst (step s a)) = has_sample (fst (step s a))
  /\ implb (isPanning (fst (step s a))) (spaceDown (fst (step s a))) = true.
Proof.
  intros H1 H2. unfold has_sample in *.
  destruct a.
  9: { unfold step, on_app_created.
       destruct (stage s); simpl; auto. }
  all: destruct s as [sd ip lp bt v ct rid run ab st h rp rl]; simpl in *; subst.
  all: crunch; simpl in *; try (split; [reflexivity|]); auto;
       try discriminate.
  all: try (apply andb_prop in Heqb0 as [_ ->]; reflexivity).
Qed.

Lemma inv_init_unbooted : unbooted (init (F:=F)).
Proof. repeat split; auto; discriminate. Qed.

(** X5.  In every state the component can be in, a pan is going on
    exactly when a pointer position is sampled ([isPanning] is true iff
    [lastPt] is not null), and a pan goes on only while the space bar is
    down. *)
Theorem pan_state_consistent (acts : list (Action F V)) :
  let s := fst (run init acts) in
  isPanning s = has_sample s /\ implb (isPanning s) (spaceDown s) = true.
Proof.
  intros s.
  refine (run_invariant
    (fun s' _ => isPanning s' = has_sample s' /\
                 implb (isPanning s') (spaceDown s') = true)
    (fun _ => True) _ acts init [] (any_run acts) _).
  - intros s0 _ a _ [H1 H2]. apply pan_flags_step; assumption.
  - split; reflexivity.
Qed.

Lemma captures_of_app (t1 t2 : list (Effect F)) :
  captures_of (t1 ++ t2) = captures_of t1 ++ captures_of t2.
Proof.
  induction t1 as [|e t1 IH]; [reflexivity|].
  destruct e; simpl; rewrite IH; reflexivity.
Qed.

Lemma releases_of_app (t1 t2 : list (Effect F)) :
  releases_of (t1 ++ t2) = releases_of t1 ++ releases_of t2.
Proof.
  induction t1 as [|e t1 IH]; [reflexivity|].
  destruct e; simpl; rewrite IH; reflexivity.
Qed.

Lemma camera_text_after_app (text : string) (t1 t2 : list (Effect F)) :
  camera_text_after text (t1 ++ t2)
  = camera_text_after (camera_text_after text t1) t2.
Proof.
  revert text. induction t1 as [|e t1 IH]; intros text; [reflexivity|].
  destruct e; simpl; apply IH.
Qed.

(** A step from a state in which no pan is going on. *)
Lemma idle_step s (a : Action F V) :
  isPanning s = false ->
  pan_deltas_of (snd (step s a)) = []
  /\ releases_of (snd (step s a)) = []
  /\ (is_primary_pointerdown a && spaceDown s = false ->
      isPanning (fst (step s a)) = false /\ captures_of (snd (step s a)) = [])
  /\ (is_pointerdown a = false -> isPanning (fst (step s a)) = false)
  /\ (is_pointerdown a = false -> lastPt s = None ->
      lastPt (fst (step s a)) = None).
Proof.
  intros Hidle.
  destruct a.
  9: { unfold step, on_app_created.
       destruct (stage s); simpl; auto 10. }
  all: destruct s as [sd ip lp bt v ct rid run ab st h rp rl]; simpl in *; subst.
  all: crunch; simpl in *; repeat split; intros; auto; try discriminate.
Qed.

Lemma space_step s (a : Action F V) :
  spaceDown s = false -> is_space_keydown a = false ->
  spaceDown (fst (step s a)) = false.
Proof.
  intros Hsp Ha.
  destruct a.
  9: { unfold step, on_app_created. destruct (stage s); simpl; auto. }
  all: destruct s as [sd ip lp bt v ct rid run ab st h rp rl]; simpl in *; subst.
  all: crunch; simpl in *; auto; try discriminate.
Qed.

(** X6.  A pan needs the space bar and the primary button: in a run in
    which the space bar never goes down, or in which no pointerdown has
    button 0, no pan ever starts: at the end no pan is going on, no
    position is sampled, no pan delta was pushed and the pointer was
    never captured. *)
Theorem pan_needs_space_and_button (acts : list (Action F V)) :
  Forall (fun a => is_space_keydown a = false) acts
  \/ Forall (fun a => is_primary_pointerdown a = false) acts ->
  let s := fst (run init acts) in
  let t := snd (run init acts) in
  isPanning s = false /\ lastPt s = None
  /\ pan_deltas_of t = [] /\ captures_of t = [].
Proof.
  intros [Hno | Hno] s t.
  - pose proof (run_invariant
      (fun s' t' => spaceDown s' = false /\ isPanning s' = false /\
                    pan_deltas_of t' = [] /\ captures_of t' = [])
      (fun a => is_space_keydown a = false)) as Hrun.
    destruct (Hrun) with (acts := acts) (s := init (F:=F)) (t := @nil (Effect F))
      as (_ & Hp & Hd & Hc); [| exact Hno | repeat split |].
    + clear. intros s t a Ha (Hsp & Hip & Hd & Hc).
      destruct (idle_step s a Hip) as (Hd' & _ & Hstart & _).
      rewrite Hsp, andb_false_r in Hstart. destruct (Hstart eq_refl) as [Hip' Hc'].
      rewrite <- pan_deltas_of_app, captures_of_app, Hd, Hc, Hd', Hc'.
      repeat split; auto. apply space_step; assumption.
    + pose proof (pan_state_consistent acts) as [Hs _]. fold s in Hs.
      fold s in Hp. simpl in Hd, Hc. fold t in Hd, Hc.
      repeat split; auto. rewrite Hp in Hs. unfold has_sample in Hs.
      destruct (lastPt s); [discriminate|reflexivity].
  - pose proof (run_invariant
      (fun s' t' => isPanning s' = false /\
                    pan_deltas_of t' = [] /\ captures_of t' = [])
      (fun a => is_primary_pointerdown a = false)) as Hrun.
    destruct (Hrun) with (acts := acts) (s := init (F:=F)) (t := @nil (Effect F))
      as (Hp & Hd & Hc); [| exact Hno | repeat split |].
    + clear. intros s t a Ha (Hip & Hd & Hc).
      destruct (idle_step s a Hip) as (Hd' & _ & Hstart & _).
      rewrite Ha in Hstart. destruct (Hstart eq_refl) as [Hip' Hc'].
      rewrite <- pan_deltas_of_app, captures_of_app, Hd, Hc, Hd', Hc'.
      repeat split; auto.
    + pose proof (pan_state_consistent acts) as [Hs _]. fold s in Hs.
      fold s in Hp. simpl in Hd, Hc. fold t in Hd, Hc.
      repeat split; auto. rewrite Hp in Hs. unfold has_sample in Hs.
      destruct (lastPt s); [discriminate|reflexivity].
Qed.

(** What ends a pan ends it: no pan, no sample. *)
Lemma pan_end_step s (a : Action F V) :
  aborted s = false -> isPanning s = has_sample s -> is_pan_end a = true ->
  isPanning (fst (step s a)) = false /\ lastPt (fst (step s a)) = None.
Proof.
  intros Hab Hinv Hend. unfold has_sample in *.
  destruct a; try discriminate.
  all: destruct s as [sd ip lp bt v ct rid run ab st h rp rl]; simpl in *; subst.
  all: crunch; simpl in *; auto; try discriminate.
  all: destruct lp; auto; discriminate.
Qed.

(** X7.  With the listeners attached, a pointerup, a pointercancel or a
    keyup of the space bar ends the pan: afterwards no pan is going on
    and no position is sampled, and until the next pointerdown, whatever
    else happens, no pan delta is pushed and it stays so. *)
Theorem pan_end_stops_deltas (before after : list (Action F V))
    (a : Action F V) :
  let s := fst (run init before) in
  let s1 := fst (step s a) in
  aborted s = false -> is_pan_end a = true ->
  Forall (fun a' => is_pointerdown a' = false) after ->
  isPanning s1 = false /\ lastPt s1 = None
  /\ pan_deltas_of (snd (run s1 after)) = []
  /\ isPanning (fst (run s1 after)) = false
  /\ lastPt (fst (run s1 after)) = None.
Proof.
  intros s s1 Hab Hend Hafter.
  destruct (pan_state_consistent before) as [Hinv _]. fold s in Hinv.
  destruct (pan_end_step s a Hab Hinv Hend) as [Hip Hlp]. fold s1 in Hip, Hlp.
  split; [exact Hip|]. split; [exact Hlp|].
  pose proof (run_invariant
    (fun s' t' => isPanning s' = false /\ lastPt s' = None /\
                  pan_deltas_of t' = [])
    (fun a' => is_pointerdown a' = false)) as Hrun.
  destruct (Hrun) with (acts := after) (s := s1) (t := @nil (Effect F))
    as (Hp & Hl & Hd); [| exact Hafter | repeat split; assumption |].
  - clear. intros s t a Ha (Hip & Hlp & Hd).
    destruct (idle_step s a Hip) as (Hd' & _ & _ & Hip' & Hlp').
    rewrite <- pan_deltas_of_app, Hd, Hd'. auto.
  - simpl in Hd. auto.
Qed.

(** Captures, releases and the pan flag across one step. *)
Lemma capture_step s (a : Action F V) :
  length (releases_of (snd (step s a))) + Nat.b2n (isPanning (fst (step s a)))
  <= length (captures_of (snd (step s a))) + Nat.b2n (isPanning s).
Proof.
  destruct a.
  9: { unfold step, on_app_created. destruct (stage s); simpl; lia. }
  all: destruct s as [sd ip lp bt v ct rid run ab st h rp rl]; simpl in *; subst.
  all: crunch; simpl in *; lia.
Qed.

(** X8.  In every run, [releasePointerCapture] has been called at most
    as often as [setPointerCapture], and strictly less often while a pan
    is going on. *)
Theorem releases_bounded_by_captures (acts : list (Action F V)) :
  let s := fst (run init acts) in
  let t := snd (run init acts) in
  length (releases_of t) + Nat.b2n (isPanning s) <= length (captures_of t).
Proof.
  intros s t.
  refine (run_invariant
    (fun s' t' => length (releases_of t') + Nat.b2n (isPanning s')
                  <= length (captures_of t'))
    (fun _ => True) _ acts init [] (any_run acts) _).
  - intros s0 t0 a _ H0. pose proof (capture_step s0 a) as H1.
    rewrite releases_of_app, captures_of_app, !length_app. lia.
  - simpl. lia.
Qed.

(** X9.  Ending a pan by releasing the space bar does not release the
    pointer capture: the keyup calls no [releasePointerCapture], and the
    pointerup or pointercancel that follows finds no pan to end, changes
    nothing and calls nothing. *)
Theorem keyup_space_keeps_capture s (e_up : PointerEvent F) :
  let space_up := keyup (F:=F) (V:=V) (mkKeyboardEvent "Space") in
  let s1 := fst (step s space_up) in
  releases_of (snd (step s space_up)) = []
  /\ step (V:=V) s1 (pointerup e_up) = (s1, [])
  /\ step (V:=V) s1 (pointercancel e_up) = (s1, []).
Proof.
  destruct s as [sd ip lp bt v ct rid run ab st h rp rl].
  crunch; simpl in *; repeat split; try reflexivity; try discriminate.
Qed.

Lemma loop_alive_step s (a : Action F V) :
  loop_alive s -> is_cleanup a = false -> loop_alive (fst (step s a)).
Proof.
  intros (Hrun & Hab & Hst) Ha. unfold loop_alive.
  destruct a; try discriminate.
  9: { unfold step, on_app_created.
       destruct (stage s) eqn:E; simpl; rewrite ?E; auto.
       destruct Hst as [-> _]. simpl. repeat split; auto. }
  all: destruct s as [sd ip lp bt v ct rid run ab st h rp rl]; simpl in *; subst.
  all: crunch; simpl in *; auto; try discriminate.
  all: try (destruct Hst as [Hp Hr]; try discriminate;
            try (injection Hp as -> ->); repeat split; auto; lia).
Qed.

(** X10.  As long as the component is not cleaned up the loop keeps
    itself scheduled, through returning and throwing ticks alike: it
    runs, the listeners are attached, and once the bootstrap has finished
    exactly one animation-frame callback is pending, the one whose
    non-zero handle is in [rafId]; before that none is and [rafId] is 0. *)
Theorem loop_keeps_itself_scheduled (acts : list (Action F V)) :
  Forall (fun a => is_cleanup a = false) acts ->
  let s := fst (run init acts) in
  running s = true /\ aborted s = false /\
  match stage s with
  | Ready => raf_pending s = [rafId s] /\ rafId s <> 0
  | _ => raf_pending s = [] /\ rafId s = 0
  end.
Proof.
  intros Hno s.
  refine (run_invariant (fun s' _ => loop_alive s')
            (fun a => is_cleanup a = false) _ acts init [] Hno _).
  - intros s0 _ a Ha H0. apply loop_alive_step; assumption.
  - repeat split.
Qed.

(** A step from a state with the batch in place keeps the variable
    [batch] and changes the store at most at the array. *)
Lemma step_store s (a : Action F V) b ar es :
  stage s = Ready -> batch s = Some b -> heap s !! b = Some (BatchObj ar) ->
  heap s !! ar = Some (ArrayObj es) ->
  batch (fst (step s a)) = Some b /\ stage (fst (step s a)) = Ready
  /\ exists es', heap (fst (step s a)) = <[ar := ArrayObj es']> (heap s).
Proof.
  intros Hst Hb Hob Hoa.
  assert (Hid : heap s = <[ar := ArrayObj es]> (heap s))
    by (symmetry; apply insert_id; exact Hoa).
  destruct a.
  9: { unfold step, on_app_created. rewrite Hst. simpl. eauto. }
  all: destruct s as [sd ip lp bt v ct rid run ab st h rp rl]; simpl in *; subst.
  all: unfold_cmds; unfold_store; simpl;
    repeat (first [ progress (rewrite ?Hob, ?Hoa; simpl) | break_step ]);
    repeat split; eauto.
Qed.

(** A component that has no batch yet has allocated no batch object and
    no array; the step that creates the batch allocates one of each. *)
Lemma step_unbooted_store s (a : Action F V) :
  unbooted s ->
  unbooted (fst (step s a))
  \/ exists b ar,
       ar <> b /\ stage (fst (step s a)) = Ready /\
       batch (fst (step s a)) = Some b /\
       heap (fst (step s a)) = <[b := BatchObj ar]> (<[ar := ArrayObj []]> ∅).
Proof.
  intros (Hb & Hh & Hp & Hr & Hs).
  destruct a.
  9: { destruct (stage s) eqn:Hst.
       1,3: left; unfold step, on_app_created; rewrite Hst; simpl;
            repeat split; auto; congruence.
       right. destruct (on_app_created_spec s Hst) as (b & ar & Hne & ->). simpl.
       exists b, ar. rewrite Hh. auto. }
  all: left.
  all: destruct s as [sd ip lp bt v ct rid run ab st h rp rl]; simpl in *; subst.
  all: crunch; simpl in *; repeat split; auto; try discriminate.
Qed.

Lemma store_shape_run (acts : list (Action F V)) :
  store_shape (fst (run init acts)).
Proof.
  refine (run_invariant (fun s' _ => store_shape s') (fun _ => True) _
            acts init [] (any_run acts) _).
  - intros s _ a _ [Hun | (b & ar & es & Hne & Hst & Hb & Hh)].
    + destruct (step_unbooted_store s a Hun) as [Hun' | (b & ar & Hne & Hst & Hb & Hh)].
      * left. exact Hun'.
      * right. exists b, ar, []. auto.
    + right.
      assert (Hob : heap s !! b = Some (BatchObj ar))
        by (rewrite Hh; apply lookup_insert_eq).
      assert (Hoa : heap s !! ar = Some (ArrayObj es)).
      { rewrite Hh. rewrite lookup_insert_ne by congruence. apply lookup_insert_eq. }
      destruct (step_store s a b ar es Hst Hb Hob Hoa) as (Hb' & Hst' & es' & Hh').
      exists b, ar, es'. repeat split; auto.
      rewrite Hh', Hh. rewrite insert_insert_ne by congruence.
      rewrite insert_insert_eq. reflexivity.
  - left. apply inv_init_unbooted.
Qed.

Lemma run_store s (acts : list (Action F V)) b ar es :
  stage s = Ready -> batch s = Some b -> heap s !! b = Some (BatchObj ar) ->
  heap s !! ar = Some (ArrayObj es) ->
  batch (fst (run s acts)) = Some b
  /\ heap (fst (run s acts)) !! b = Some (BatchObj ar)
  /\ exists es', heap (fst (run s acts)) !! ar = Some (ArrayObj es').
Proof.
  intros Hst Hb Hob Hoa.
  assert (Hne : ar <> b) by (intros ->; congruence).
  pose proof (run_invariant
    (fun s' _ => stage s' = Ready /\ batch s' = Some b /\
                 heap s' !! b = Some (BatchObj ar) /\
                 (exists es', heap s' !! ar = Some (ArrayObj es')))
    (fun _ => True)) as Hrun.
  destruct (Hrun) with (acts := acts) (s := s) (t := @nil (Effect F))
    as (_ & Hb' & Hob' & Hoa'); [| apply any_run | eauto 10 | auto].
  clear Hrun. intros s0 _ a _ (Hst0 & Hb0 & Hob0 & (es0 & Hoa0)).
  destruct (step_store s0 a b ar es0 Hst0 Hb0 Hob0 Hoa0) as (Hb1 & Hst1 & es1 & Hh1).
  rewrite Hh1. repeat split; auto.
  - rewrite lookup_insert_ne by congruence. exact Hob0.
  - exists es1. apply lookup_insert_eq.
Qed.

(** X11.  The batch is allocated once.  If at some point of a run the
    variable [batch] holds an address, then the object there refers to an
    array at another address, and at every later point [batch] holds the
    same address and the batch object refers to the same array, which is
    still there: the batch is never replaced and its [events] field is
    never assigned another array. *)
Theorem batch_allocated_once (pre post : list (Action F V)) (b : loc) :
  let s1 := fst (run init pre) in
  let s2 := fst (run s1 post) in
  batch s1 = Some b ->
  exists ar,
    ar <> b /\ heap s1 !! b = Some (BatchObj ar)
    /\ (exists es, heap s1 !! ar = Some (ArrayObj es))
    /\ batch s2 = Some b /\ heap s2 !! b = Some (BatchObj ar)
    /\ (exists es', heap s2 !! ar = Some (ArrayObj es')).
Proof.
  intros s1 s2 Hb.
  pose proof (store_shape_run pre) as Hshape. fold s1 in Hshape.
  destruct Hshape as [(Hnone & _) | (b' & ar & es & Hne & Hst & Hb' & Hh)];
    [congruence|].
  assert (b' = b) as -> by congruence.
  assert (Hob : heap s1 !! b = Some (BatchObj ar))
    by (rewrite Hh; apply lookup_insert_eq).
  assert (Hoa : heap s1 !! ar = Some (ArrayObj es)).
  { rewrite Hh. rewrite lookup_insert_ne by congruence. apply lookup_insert_eq. }
  destruct (run_store s1 post b ar es Hst Hb Hob Hoa) as (Hb2 & Hob2 & Hoa2).
  fold s2 in Hb2, Hob2, Hoa2.
  exists ar. repeat split; eauto.
Qed.

(** Ticks and HUD reports across one step. *)
Lemma report_step s (a : Action F V) :
  length (camera_texts_of (snd (step s a))) = length (ticks_of (snd (step s a)))
  /\ cameraText (fst (step s a))
     = camera_text_after (cameraText s) (snd (step s a)).
Proof.
  destruct a.
  9: { unfold step, on_app_created. destruct (stage s); simpl; auto. }
  all: destruct s as [sd ip lp bt v ct rid run ab st h rp rl]; simpl in *; subst.
  all: crunch; simpl in *; auto.
Qed.

(** X12.  In every run the camera line of the HUD has been written once
    for each call of [app.tick], no more and no less, and it shows the
    text of the last such write, or "(no data)" if there was none. *)
Theorem one_report_per_tick (acts : list (Action F V)) :
  let s := fst (run init acts) in
  let t := snd (run init acts) in
  length (camera_texts_of t) = length (ticks_of t)
  /\ cameraText s = camera_text_after "(no data)" t.
Proof.
  intros s t.
  refine (run_invariant
    (fun s' t' => length (camera_texts_of t') = length (ticks_of t') /\
                  cameraText s' = camera_text_after "(no data)" t')
    (fun _ => True) _ acts init [] (any_run acts) _).
  - intros s0 t0 a _ [H1 H2]. destruct (report_step s0 a) as [H3 H4].
    rewrite camera_texts_of_app, ticks_of_app, !length_app, camera_text_after_app.
    rewrite H1, H3, H4, H2. auto.
  - split; reflexivity.
Qed.

(** X13.  Between frames the batch only grows: over any actions other
    than animation frames, from any state the component can be in, the
    batch ends as what it was followed by the events pushed, in order; no
    tick is called and the camera line of the HUD keeps its text. *)
Theorem batch_append_only_between_frames (pre post : list (Action F V)) :
  let s1 := fst (run init pre) in
  let s2 := fst (run s1 post) in
  let t := snd (run s1 post) in
  Forall (fun a => is_animation_frame a = false) post ->
  batch_events s2 = batch_events s1 ++ pushes_of t
  /\ ticks_of t = [] /\ camera_texts_of t = []
  /\ cameraText s2 = cameraText s1.
Proof.
  intros s1 s2 t Hno.
  assert (Hinv : inv s1) by (apply inv_run, inv_init).
  pose proof (run_invariant
    (fun s' t' => inv s' /\ batch_events s' = batch_events s1 ++ pushes_of t' /\
                  ticks_of t' = [] /\ camera_texts_of t' = [] /\
                  cameraText s' = cameraText s1)
    (fun a => is_animation_frame a = false)) as Hrun.
  destruct (Hrun) with (acts := post) (s := s1) (t := @nil (Effect F))
    as (_ & He & Ht & Hc & Hx); [| exact Hno | | auto].
  - clear Hrun. intros s0 t0 a Ha (Hinv0 & He & Ht & Hc & Hx).
    destruct (step_spec s0 a Hinv0) as [Hinv' Hshape].
    destruct (report_step s0 a) as [Hlen Htxt].
    destruct Hshape as [[Hticks Hev] | (o & rest & -> & _)]; [|discriminate].
    rewrite Hticks in Hlen. simpl in Hlen.
    apply length_zero_iff_nil in Hlen.
    rewrite pushes_of_app, ticks_of_app, camera_texts_of_app.
    rewrite Hev, He, Ht, Hc, Hticks, Hlen, app_assoc.
    repeat split; auto.
    rewrite Htxt, <- Hx.
    clear - Hlen. induction (snd (step s0 a)) as [|e l IH]; [reflexivity|].
    destruct e; simpl in *; try discriminate; auto.
  - repeat split; auto. simpl. rewrite app_nil_r. reflexivity.
Qed.

(** X14.  Once the batch exists and while the listeners are attached,
    every wheel event is taken: it pushes exactly one zoom event, whose
    pivot is the client position minus the canvas rectangle's left and
    top and whose multiplier is [zoomMultiplier] of deltaY, to the end of
    the batch, calls [preventDefault], and leaves the pan state as it
    is. *)
Theorem wheel_pushes_once_booted (pre : list (Action F V))
    (e : WheelEvent F) (rect : DOMRect F) :
  let s := fst (run init pre) in
  let s' := fst (step (V:=V) s (wheel e rect)) in
  let t := snd (step (V:=V) s (wheel e rect)) in
  let ev := camera_zoom_at_screen_point
              (mkPoint (fsub (wheelX e) (left rect)) (fsub (wheelY e) (top rect)))
              (zoomMultiplier (deltaY e)) in
  batch s <> None -> aborted s = false ->
  pushes_of t = [ev] /\ In preventDefault t
  /\ batch_events s' = batch_events s ++ [ev]
  /\ isPanning s' = isPanning s /\ lastPt s' = lastPt s
  /\ spaceDown s' = spaceDown s.
Proof.
  intros s s' t ev Hsome Hab.
  assert (Hinv : inv s) by (apply inv_run, inv_init).
  destruct Hinv as [(Hnone & _) | ((b & ar & es & Hb & Hob & Hoa & Hne) & _)];
    [congruence|].
  assert (Hl1 : forall es', (<[ar := ArrayObj es']> (heap s)) !! b = Some (BatchObj ar))
    by (intros; rewrite lookup_insert_ne by congruence; exact Hob).
  assert (Hl2 : forall es', (<[ar := ArrayObj es']> (heap s)) !! ar = Some (ArrayObj es'))
    by (intros; apply lookup_insert_eq).
  unfold s', t, ev. clearbody s. clear s' t ev Hsome.
  destruct s as [sd ip lp bt v ct rid run ab st h rp rl]; simpl in *; subst.
  unfold_cmds; unfold_store; simpl.
  repeat (rewrite ?Hob, ?Hoa, ?Hl1, ?Hl2; simpl).
  repeat split; auto.
Qed.
End WebExtras.

Section ZoomMultiplier.
Import Web.
Local Open Scope R_scope.

(** X15.  On the reals the zoom multipliers of wheel events compose: the
    multiplier of deltaY = d1 + d2 is the product of the multipliers of
    d1 and of d2, and the multipliers of d and of -d multiply to 1, so
    scrolling back by the same amount undoes the zoom factor. *)
Theorem zoomMultiplier_composes (d1 d2 : R) :
  zoomMultiplier (d1 + d2) = zoomMultiplier d1 * zoomMultiplier d2
  /\ zoomMultiplier d1 * zoomMultiplier (- d1) = 1.
Proof.
  rewrite !zoomMultiplier_R. split.
  - rewrite <- exp_plus. f_equal. lra.
  - rewrite <- exp_plus. replace (- d1 * 0.0015 + - - d1 * 0.0015) with 0 by lra.
    apply exp_0.
Qed.

(** X16.  On the reals the zoom multiplier strictly decreases as deltaY
    grows: a positive deltaY (scrolling down) gives a multiplier below 1,
    a negative one a multiplier above 1. *)
Theorem zoomMultiplier_direction (d1 d2 : R) :
  d1 < d2 ->
  zoomMultiplier d2 < zoomMultiplier d1
  /\ (0 < d2 -> zoomMultiplier d2 < 1)
  /\ (d1 < 0 -> 1 < zoomMultiplier d1).
Proof.
  intros Hlt. rewrite !zoomMultiplier_R. repeat split.
  - apply exp_increasing. lra.
  - intros Hpos. rewrite <- exp_0. apply exp_increasing. lra.
  - intros Hneg. rewrite <- exp_0. apply exp_increasing. lra.
Qed.
End ZoomMultiplier.

(* ===================================================================== *)
(** ** The further properties on examples *)
(* ===================================================================== *)

Section FurtherExamples.
Import Shader Web.
Local Open Scope R_scope.
Local Open Scope string_scope.
#[local] Existing Instance Host_example.

(** With the default camera on a canvas of 800 by 600, the lower right
    corner of a quad that fills the canvas goes to the clip corner
    (1, -1). *)
Lemma vs_main_canvas_clip_square_witness :
  let u := mkCameraUniform (Vec2 0 0) 1 0 (Vec2 800 600) (Vec2 0 0) in
  let out := pos (vs_main u (Vec2 1 1) (Vec2 0 0) (Vec2 800 600) (Vec4 1 0 0 1)) in
  0 < vx (u_canvas u) /\ 0 < vy (u_canvas u)
  /\ cx out = 1 /\ cy out = -1 /\ -1 <= cx out <= 1.
Proof.
  intros u out.
  assert (Hw : 0 < vx (u_canvas u)) by (simpl; lra).
  assert (Hh : 0 < vy (u_canvas u)) by (simpl; lra).
  destruct (vs_main_canvas_clip_square u (Vec2 1 1) (Vec2 0 0) (Vec2 800 600)
              (Vec4 1 0 0 1) Hw Hh) as (Hin & _ & _ & Hr & _ & Hb).
  split; [exact Hw|]. split; [exact Hh|].
  split; [apply Hr; simpl; lra|]. split; [apply Hb; simpl; lra|].
  apply Hin. simpl. lra.
Defined.

(** Two different vertices that land on the same clip position: the
    corner (1, 0) of an instance at (10, 20) of size 30 x 40 and the corner
    (0, 0) of an instance at (40, 20) of size 5 x 5.  Both are the world
    point (40, 20). *)
Lemma vs_main_injective_witness :
  let u := mkCameraUniform (Vec2 50 0) 2 0 (Vec2 800 600) (Vec2 0 0) in
  u_zoom u <> 0 /\ vx (u_canvas u) <> 0 /\ vy (u_canvas u) <> 0
  /\ pos (vs_main u (Vec2 1 0) (Vec2 10 20) (Vec2 30 40) (Vec4 1 0 0 1))
     = pos (vs_main u (Vec2 0 0) (Vec2 40 20) (Vec2 5 5) (Vec4 0 1 0 1))
  /\ world_of (Vec2 1 0) (Vec2 10 20) (Vec2 30 40)
     = world_of (Vec2 0 0) (Vec2 40 20) (Vec2 5 5).
Proof.
  intros u.
  assert (Hz : u_zoom u <> 0) by (simpl; lra).
  assert (Hw : vx (u_canvas u) <> 0) by (simpl; lra).
  assert (Hh : vy (u_canvas u) <> 0) by (simpl; lra).
  assert (Hp : pos (vs_main u (Vec2 1 0) (Vec2 10 20) (Vec2 30 40) (Vec4 1 0 0 1))
               = pos (vs_main u (Vec2 0 0) (Vec2 40 20) (Vec2 5 5) (Vec4 0 1 0 1))).
  { rewrite !vs_main_R. simpl. apply f_equal4; try reflexivity; lra. }
  split; [exact Hz|]. split; [exact Hw|]. split; [exact Hh|].
  split; [exact Hp|].
  exact (vs_main_injective u (Vec2 1 0) (Vec2 10 20) (Vec2 30 40)
           (Vec2 0 0) (Vec2 40 20) (Vec2 5 5) (Vec4 1 0 0 1) (Vec4 0 1 0 1)
           Hz Hw Hh Hp).
Defined.

(** The drag gesture without the space bar: nothing is pushed. *)
Lemma pan_needs_space_and_button_witness :
  let acts := (example_boot ++
               [pointerdown (mkPointerEvent 0%Z 10 10 1%Z);
                pointermove (mkPointerEvent 0%Z 15 10 1%Z)])%list in
  Forall (fun a => is_space_keydown a = false) acts
  /\ isPanning (fst (run init acts)) = false
  /\ pan_deltas_of (snd (run init acts)) = [].
Proof.
  intros acts.
  assert (Hno : Forall (fun a => is_space_keydown a = false) acts)
    by (repeat constructor).
  destruct (pan_needs_space_and_button acts (or_introl Hno)) as (Hp & _ & Hd & _).
  split; [exact Hno|]. split; [exact Hp|exact Hd].
Defined.

(** The example drag ended by a pointerup: the moves after it push no pan
    delta. *)
Lemma pan_end_stops_deltas_witness :
  let s := fst (run init example_drag) in
  let up := pointerup (mkPointerEvent 0%Z 15 10 1%Z) in
  aborted s = false /\ is_pan_end up = true
  /\ Forall (fun a' => is_pointerdown a' = false) example_moves
  /\ pan_deltas_of (snd (run (fst (step s up)) example_moves)) = [].
Proof.
  intros s up.
  assert (Hafter : Forall (fun a' => is_pointerdown a' = false) example_moves)
    by (repeat constructor).
  destruct (pan_end_stops_deltas example_drag example_moves up eq_refl eq_refl Hafter)
    as (_ & _ & Hd & _).
  split; [reflexivity|]. split; [reflexivity|]. split; [exact Hafter|exact Hd].
Defined.

(** The example drag and a tick that throws: one callback is pending. *)
Lemma loop_keeps_itself_scheduled_witness :
  let acts := (example_drag ++ [animation_frame (Threw "lost surface")])%list in
  let s := fst (run init acts) in
  Forall (fun a => is_cleanup a = false) acts
  /\ running s = true /\ stage s = Ready /\ raf_pending s = [rafId s].
Proof.
  intros acts s.
  assert (Hno : Forall (fun a => is_cleanup a = false) acts)
    by (repeat constructor).
  destruct (loop_keeps_itself_scheduled acts Hno) as (Hrun & _ & Hst).
  fold s in Hrun, Hst.
  assert (Hready : stage s = Ready) by reflexivity.
  rewrite Hready in Hst.
  split; [exact Hno|]. split; [exact Hrun|]. split; [exact Hready|apply Hst].
Defined.

(** The batch created by the bootstrap is still the batch after the
    example moves, and refers to the same array. *)
Lemma batch_allocated_once_witness :
  let s1 := fst (run init example_boot) in
  let s2 := fst (run s1 example_moves) in
  batch s1 = Some 1%nat /\ batch s2 = Some 1%nat
  /\ exists ar, heap s1 !! 1%nat = Some (BatchObj ar)
                /\ heap s2 !! 1%nat = Some (BatchObj ar)
                /\ exists es', heap s2 !! ar = Some (ArrayObj es').
Proof.
  intros s1 s2.
  assert (Hb : batch s1 = Some 1%nat) by reflexivity.
  destruct (batch_allocated_once example_boot example_moves 1%nat Hb)
    as (ar & _ & Hob1 & _ & Hb2 & Hob2 & Hoa2).
  split; [exact Hb|]. split; [exact Hb2|]. exists ar.
  split; [exact Hob1|]. split; [exact Hob2|exact Hoa2].
Defined.

(** After the bootstrap, the press and a move, with no frame in between:
    the batch holds what was pushed. *)
Lemma batch_append_only_between_frames_witness :
  let s1 := fst (run init example_boot) in
  let post := (example_press ++
               [pointermove (mkPointerEvent 0%Z 15 10 1%Z)])%list in
  Forall (fun a => is_animation_frame a = false) post
  /\ batch_events (fst (run s1 post))
     = (batch_events s1 ++ pushes_of (snd (run s1 post)))%list.
Proof.
  intros s1 post.
  assert (Hno : Forall (fun a => is_animation_frame a = false) post)
    by (repeat constructor).
  destruct (batch_append_only_between_frames example_boot post Hno) as (He & _).
  split; [exact Hno|exact He].
Defined.

(** A wheel event after the bootstrap is taken. *)
Lemma wheel_pushes_once_booted_witness :
  let s := fst (run init example_boot) in
  let e := mkWheelEvent 400 300 120 in
  let rect := mkDOMRect 8 16 in
  batch s <> None /\ aborted s = false
  /\ pushes_of (snd (step s (wheel e rect)))
     = [camera_zoom_at_screen_point (mkPoint (400 - 8) (300 - 16))
          (zoomMultiplier 120)].
Proof.
  intros s e rect.
  assert (Hsome : batch s <> None) by (vm_compute; discriminate).
  destruct (wheel_pushes_once_booted example_boot e rect Hsome eq_refl)
    as (Hpush & _).
  split; [exact Hsome|]. split; [reflexivity|exact Hpush].
Defined.

(** One notch up against one notch down. *)
Lemma zoomMultiplier_direction_witness :
  -120 < 120
  /\ zoomMultiplier 120 < zoomMultiplier (-120)
  /\ zoomMultiplier 120 < 1 /\ 1 < zoomMultiplier (-120).
Proof.
  assert (Hlt : -120 < 120) by lra.
  destruct (zoomMultiplier_direction (-120) 120 Hlt) as (Hmono & Hdown & Hup).
  split; [exact Hlt|]. split; [exact Hmono|].
  split; [apply Hdown; lra|apply Hup; lra].
Defined.

End FurtherExamples.
